(** * Verification of [main.py]

    A shallow embedding of the four utilities of [main.py]:
    the [DataStorage] key-value store, [find_top_k_frequent_words],
    [check_polygon_collision] and [FileProcessor.copy_directory].

    Conventions of the embedding.
    - Python exceptions are values of [exn]; a computation that may raise
      has type [result A].
    - Polygon coordinates are exact rationals ([Q]): Python integers and
      the exactly representable quotients the demo inputs produce are
      covered literally, the rounding of binary floating point is not
      modelled.
    - A Python [dict] with string keys is a [gmap string _]. *)

From Stdlib Require Import ZArith QArith Lqa Bool List Ascii String Lia.
From stdpp Require Import base option list gmap strings fin_maps.
Import ListNotations.

Local Open Scope Z_scope.

(* ===================================================================== *)
(** * Python exceptions and fallible computations *)
(* ===================================================================== *)

Inductive exn : Set :=
| ZeroDivisionError
| IndexError
| KeyError
| FileNotFoundError
| FileExistsError
| NotADirectoryError
| IsADirectoryError
| SameFileError
| RecursionError.

Inductive result (A : Type) : Type :=
| Raise (e : exn)
| Return (a : A).
Arguments Raise {A} e.
Arguments Return {A} a.

#[global] Instance result_ret : MRet result := fun _ a => Return a.
#[global] Instance result_bind : MBind result := fun _ _ f m =>
  match m with
  | Raise e => Raise e
  | Return a => f a
  end.

(** [l[i]] on a Python list: a negative index counts from the end, an index
    out of range raises [IndexError]. *)
Definition getitem {A} (l : list A) (i : Z) : result A :=
  let n := Z.of_nat (length l) in
  let k := if i <? 0 then i + n else i in
  if (k <? 0) || (n <=? k) then Raise IndexError
  else match nth_error l (Z.to_nat k) with
       | Some a => Return a
       | None => Raise IndexError
       end.

(** [range(n)] *)
Definition range (n : nat) : list Z := map Z.of_nat (seq 0 n).

(** A [for] loop whose body may raise, threading the loop state. *)
Fixpoint for_each {A S} (l : list A) (body : S -> A -> result S) (s : S) : result S :=
  match l with
  | [] => Return s
  | a :: l' => s' ← body s a; for_each l' body s'
  end.

(** A list comprehension whose element expression may raise. *)
Fixpoint comprehension {A B} (f : A -> result B) (l : list A) : result (list B) :=
  match l with
  | [] => Return []
  | a :: l' => b ← f a; bs ← comprehension f l'; mret (b :: bs)
  end.

(** [a % b] on Python integers: floored, and raising on [b = 0]. *)
Definition py_mod (a b : Z) : result Z :=
  if b =? 0 then Raise ZeroDivisionError else Return (a mod b).

(* ===================================================================== *)
(** * Logging *)
(* ===================================================================== *)

(** A record of [app.log]: its level and its message. *)
Inductive level : Set := INFO | ERROR.
Abbreviation log_record := (level * string)%type.

(* ===================================================================== *)
(** * DataStorage *)
(* ===================================================================== *)

Module DataStorage.

(** The state the methods act on: the dictionary [self._data], and the
    records logged so far. *)
Record t : Type := mk { _data : gmap string string; log : list log_record }.

(** [DataStorage()] *)
Definition init (log0 : list log_record) : t :=
  {| _data := ∅; log := log0 ++ [(INFO, "DataStorage initialized")] |}.

Definition info (self : t) (msg : string) : t :=
  {| _data := _data self; log := log self ++ [(INFO, msg)] |}.

Definition add (self : t) (key value : string) : t :=
  info {| _data := <[key := value]> (_data self); log := log self |}
       ("Added/Updated key: " +:+ key).

(** [d.get(key, default)] on a dictionary. *)
Definition dict_get (d : gmap string string) (key default : string) : string :=
  match d !! key with
  | Some v => v
  | None => default
  end.

Definition get (self : t) (key : string) : string * t :=
  let value := dict_get (_data self) key "Key not found" in
  (value, info self ("Retrieved key: " +:+ key)).

(** [del d[key]] raises [KeyError] on a missing key. *)
Definition dict_del (d : gmap string string) (key : string) : result (gmap string string) :=
  match d !! key with
  | Some _ => Return (base.delete key d)
  | None => Raise KeyError
  end.

Definition delete (self : t) (key : string) : result t :=
  if bool_decide (is_Some (_data self !! key)) then
    d ← dict_del (_data self) key;
    mret (info {| _data := d; log := log self |} ("Deleted key: " +:+ key))
  else mret self.

(** [list] returns a copy of the dictionary: the dictionary as a value. *)
Definition list (self : t) : gmap string string * t :=
  (_data self, info self "Listed all data").

End DataStorage.

(* ===================================================================== *)
(** * find_top_k_frequent_words *)
(* ===================================================================== *)

Module WordCount.

Definition is_upper (c : ascii) : bool :=
  (Nat.leb 65 (nat_of_ascii c) && Nat.leb (nat_of_ascii c) 90)%bool.
Definition is_lower (c : ascii) : bool :=
  (Nat.leb 97 (nat_of_ascii c) && Nat.leb (nat_of_ascii c) 122)%bool.
Definition is_digit (c : ascii) : bool :=
  (Nat.leb 48 (nat_of_ascii c) && Nat.leb (nat_of_ascii c) 57)%bool.

(** [str.lower] on ASCII text. *)
Definition lower_char (c : ascii) : ascii :=
  if is_upper c then ascii_of_nat (nat_of_ascii c + 32) else c.
Fixpoint lower (s : string) : string :=
  match s with
  | EmptyString => EmptyString
  | String c s' => String (lower_char c) (lower s')
  end.

(** The class [\w] on ASCII text: letters, digits and the underscore. *)
Definition is_word_char (c : ascii) : bool :=
  (is_upper c || is_lower c || is_digit c || Ascii.eqb c "_"%char)%bool.

(** [re.findall(r'\b\w+\b', s)]: the maximal runs of word characters, from
    left to right. [cur] is the run being read, reversed. *)
Fixpoint scan_words (s : string) (cur : list ascii) : list string :=
  let flush := match cur with
               | [] => []
               | _ => [string_of_list_ascii (rev cur)]
               end in
  match s with
  | EmptyString => flush
  | String c s' =>
      if is_word_char c then scan_words s' (c :: cur)
      else flush ++ scan_words s' []
  end.
Definition findall_words (s : string) : list string := scan_words s [].

(** [Counter(words)]: the counts, in order of first occurrence. *)
Fixpoint count_word (c : list (string * Z)) (w : string) : list (string * Z) :=
  match c with
  | [] => [(w, 1%Z)]
  | (k, n) :: c' =>
      if String.eqb k w then (k, (n + 1)%Z) :: c' else (k, n) :: count_word c' w
  end.
Definition Counter (words : list string) : list (string * Z) :=
  fold_left count_word words [].

(** [sorted(items, key=itemgetter(1), reverse=True)]: by decreasing count,
    items of equal count staying in their original order. *)
Fixpoint insert_desc (x : string * Z) (l : list (string * Z)) : list (string * Z) :=
  match l with
  | [] => [x]
  | y :: l' => if (snd x <? snd y)%Z then y :: insert_desc x l' else x :: l
  end.
Fixpoint sorted_desc (l : list (string * Z)) : list (string * Z) :=
  match l with
  | [] => []
  | x :: l' => insert_desc x (sorted_desc l')
  end.

(** [Counter.most_common(k)], which is [heapq.nlargest(k, items, key=count)]:
    the first [k] items of the stable decreasing sort, none for [k <= 0]. *)
Definition most_common (c : list (string * Z)) (k : Z) : list (string * Z) :=
  firstn (Z.to_nat k) (sorted_desc c).

Definition find_top_k_frequent_words (text : string) (k : Z) : list (string * Z) :=
  let words := findall_words (lower text) in
  most_common (Counter words) k.

(** The text of the [__main__] block. *)
Definition demo_text : string :=
  "Hello world! Hello everyone. This is a simple test. Test, test, hello.".

End WordCount.

(* ===================================================================== *)
(** * check_polygon_collision *)
(* ===================================================================== *)

Module Polygon.

Local Open Scope Q_scope.

(** [Tuple[float, float]], [List[Tuple[float, float]]] and a pair of points. *)
Abbreviation point := (Q * Q)%type (only parsing).
Abbreviation polygon := (list (Q * Q)) (only parsing).
Abbreviation edge := ((Q * Q) * (Q * Q))%type (only parsing).

(** [a < b] and [a > b] on numbers, as booleans. *)
Definition Qlt_bool (a b : Q) : bool := negb (Qle_bool b a).
Definition Qgt_bool (a b : Q) : bool := Qlt_bool b a.

(** [a / b]: raises [ZeroDivisionError] when the divisor is zero. *)
Definition py_div (a b : Q) : result Q :=
  if Qeq_bool b 0 then Raise ZeroDivisionError else Return (a / b).

(** The first conjunct of the [if] in [point_in_polygon]:
    [(polygon[i][1] > y) != (polygon[j][1] > y)]. *)
Definition straddles (yi yj y : Q) : bool :=
  xorb (Qgt_bool yi y) (Qgt_bool yj y).

(** The condition of the [if] in the loop of [point_in_polygon], for the
    vertices [pi = polygon[i]] and [pj = polygon[j]]; [and] evaluates its
    second operand (the one that divides) only when the first is true. *)
Definition crossing (x y : Q) (pi pj : point) : result bool :=
  if straddles (snd pi) (snd pj) y then
    q ← py_div ((fst pj - fst pi) * (y - snd pi)) (snd pj - snd pi);
    mret (Qlt_bool x (q + fst pi))
  else mret false.

(** One iteration of the loop of [point_in_polygon]; the loop state is
    [(inside, j)]. *)
Definition pip_body (pt : point) (poly : polygon) (st : bool * Z) (i : Z)
  : result (bool * Z) :=
  let '(x, y) := pt in
  let '(inside, j) := st in
  pi ← getitem poly i;
  pj ← getitem poly j;
  c ← crossing x y pi pj;
  mret ((if c : bool then negb inside else inside), i).

Definition point_in_polygon (pt : point) (poly : polygon) : result bool :=
  let j := (Z.of_nat (length poly) - 1)%Z in
  st ← for_each (range (length poly)) (pip_body pt poly) (false, j);
  mret (fst st).

Definition get_edges (poly : polygon) : result (list edge) :=
  comprehension
    (fun i : Z =>
       a ← getitem poly i;
       k ← py_mod (i + 1)%Z (Z.of_nat (length poly));
       b ← getitem poly k;
       mret (a, b))
    (range (length poly)).

Definition ccw (A B C : point) : bool :=
  Qgt_bool ((snd C - snd A) * (fst B - fst A)) ((snd B - snd A) * (fst C - fst A)).

Definition line_segments_intersect (seg1 seg2 : edge) : bool :=
  let '(A, B) := seg1 in
  let '(C, D) := seg2 in
  negb (eqb (ccw A C D) (ccw B C D)) && negb (eqb (ccw A B C) (ccw A B D)).

(** What [check_polygon_collision] evaluates, in evaluation order: a call of
    [point_in_polygon] or of [line_segments_intersect]. *)
Inductive check : Type :=
| InPolygon (pt : point) (poly : polygon)
| Intersect (seg1 seg2 : edge).

(** A computation of [check_polygon_collision]: the checks it has evaluated so
    far, and its outcome. *)
Definition traced (A : Type) : Type := list check * result A.

#[global] Instance traced_ret : MRet traced := fun _ a => ([], Return a).
#[global] Instance traced_bind : MBind traced := fun _ _ f m =>
  match m with
  | (t, Raise e) => (t, Raise e)
  | (t, Return a) => let '(t', r) := f a in (t ++ t', r)
  end.

Definition lift {A} (r : result A) : traced A := ([], r).
Definition call_point_in_polygon (pt : point) (poly : polygon) : traced bool :=
  ([InPolygon pt poly], point_in_polygon pt poly).
Definition call_line_segments_intersect (e1 e2 : edge) : traced bool :=
  ([Intersect e1 e2], Return (line_segments_intersect e1 e2)).

(** [for point in pts: if point_in_polygon(point, poly): return True];
    [true] stands for the early [return True], [false] for falling through. *)
Fixpoint any_vertex_inside (pts : list point) (poly : polygon) : traced bool :=
  match pts with
  | [] => mret false
  | pt :: rest =>
      b ← call_point_in_polygon pt poly;
      if b : bool then mret true else any_vertex_inside rest poly
  end.

(** [any(...)] over a generator: stops at the first true element. *)
Fixpoint any_intersect (pairs : list (edge * edge)) : traced bool :=
  match pairs with
  | [] => mret false
  | (e1, e2) :: rest =>
      b ← call_line_segments_intersect e1 e2;
      if b : bool then mret true else any_intersect rest
  end.

(** [(edge1, edge2) for edge1 in edges1 for edge2 in edges2] *)
Definition edge_pairs (edges1 edges2 : list edge) : list (edge * edge) :=
  flat_map (fun e1 => map (fun e2 => (e1, e2)) edges2) edges1.

Definition check_polygon_collision_traced (polygon1 polygon2 : polygon) : traced bool :=
  b1 ← any_vertex_inside polygon1 polygon2;
  if b1 : bool then mret true else
  b2 ← any_vertex_inside polygon2 polygon1;
  if b2 : bool then mret true else
  edges1 ← lift (get_edges polygon1);
  edges2 ← lift (get_edges polygon2);
  any_intersect (edge_pairs edges1 edges2).

Definition check_polygon_collision (polygon1 polygon2 : polygon) : result bool :=
  snd (check_polygon_collision_traced polygon1 polygon2).

(** ** Closed forms, used to state and prove the properties *)

(** The value of the [if] condition of [point_in_polygon] when the division
    is defined. *)
Definition crosses (x y : Q) (pi pj : point) : bool :=
  straddles (snd pi) (snd pj) y &&
  Qlt_bool x ((fst pj - fst pi) * (y - snd pi) / (snd pj - snd pi) + fst pi).

(** The loop of [point_in_polygon] over the vertices [ps] still to visit,
    [pj] being the vertex visited last. *)
Fixpoint walk (x y : Q) (inside : bool) (pj : point) (ps : list point) : bool :=
  match ps with
  | [] => inside
  | pi :: rest => walk x y (xorb inside (crosses x y pi pj)) pi rest
  end.

Definition inside_polygon (pt : point) (poly : polygon) : bool :=
  walk (fst pt) (snd pt) false (List.last poly (0, 0)) poly.

(** Edge [i] of a polygon: from vertex [i] to vertex [(i + 1) mod n]. *)
Definition edge_at (poly : polygon) (i : nat) : edge :=
  (nth i poly (0, 0), nth ((i + 1) mod length poly) poly (0, 0)).

Definition edges_of (poly : polygon) : list edge :=
  map (edge_at poly) (seq 0 (length poly)).

(** The elements of [l] a short-circuiting search looks at: up to and
    including the first one that satisfies [f]. *)
Fixpoint through_first {A} (f : A -> bool) (l : list A) : list A :=
  match l with
  | [] => []
  | a :: l' => if f a then [a] else a :: through_first f l'
  end.

Definition intersecting (p : edge * edge) : bool :=
  line_segments_intersect (fst p) (snd p).

(** The calls of [point_in_polygon] made by the loop over the vertices [pts]
    against [poly], and the calls of [line_segments_intersect] made by [any]. *)
Definition vertex_checks (pts : list point) (poly : polygon) : list check :=
  map (fun pt => InPolygon pt poly)
      (through_first (fun pt => inside_polygon pt poly) pts).

Definition edge_checks (polygon1 polygon2 : polygon) : list check :=
  map (fun p => Intersect (fst p) (snd p))
      (through_first intersecting (edge_pairs (edges_of polygon1) (edges_of polygon2))).

(** ** Geometry used to state the properties *)








(** ** Concrete polygons: the demo of [main.py] and the squares of the
    specification's examples *)

(** The axis-aligned square with corners [(lo, lo)] and [(hi, hi)], listed
    counter-clockwise from its lower left corner. *)
Definition square (lo hi : Q) : polygon := [(lo, lo); (hi, lo); (hi, hi); (lo, hi)].

(** [polygon1] and [polygon2] of the [__main__] block. *)
Definition demo_polygon1 : polygon := square 0 4.
Definition demo_polygon2 : polygon := square 2 6.

End Polygon.

(* ===================================================================== *)
(** * FileProcessor.copy_directory *)
(* ===================================================================== *)

Module FileProcessor.

(** ** The file system *)

(** A path is the list of its components, innermost first: [name :: p] is
    the entry [name] of the directory [p], and [[]] is the root. Paths are
    absolute and normalised; links are not modelled. *)
Abbreviation path := (list string).

Inductive node : Type :=
| File (content : string)
| Dir.

#[global] Instance node_eq_dec : EqDecision node.
Proof. solve_decision. Defined.

(** The state of the world: the entries of the file system, and the records
    of [app.log]. A raising operation leaves the world as it is at the
    moment it raises. *)
Record world : Type := mk_world { fs : gmap path node; log : list log_record }.

Definition io (A : Type) : Type := world -> result A * world.

#[global] Instance io_ret : MRet io := fun _ a w => (Return a, w).
#[global] Instance io_bind : MBind io := fun _ _ f m w =>
  match m w with
  | (Raise e, w') => (Raise e, w')
  | (Return a, w') => f a w'
  end.

Definition raise {A} (e : exn) : io A := fun w => (Raise e, w).

Definition logging (lvl : level) (msg : string) : io unit := fun w =>
  (Return tt, {| fs := fs w; log := log w ++ [(lvl, msg)] |}).

Definition write (p : path) (n : node) : io unit := fun w =>
  (Return tt, {| fs := <[p := n]> (fs w); log := log w |}).

(** [str(path)] *)
Fixpoint path_str (p : path) : string :=
  match p with
  | [] => ""
  | name :: parent => path_str parent +:+ "/" +:+ name
  end.

(** [Path.exists] and [Path.is_dir] *)
Definition exists_ (p : path) : io bool := fun w =>
  (Return (bool_decide (is_Some (fs w !! p))), w).

Definition is_dir (p : path) : io bool := fun w =>
  (Return (bool_decide (fs w !! p = Some Dir)), w).

(** [os.mkdir(p)]: the parent must be a directory and [p] must not exist.
    The root always exists. *)
Definition os_mkdir (p : path) : io unit := fun w =>
  match p with
  | [] => raise FileExistsError w
  | _ :: parent =>
      match fs w !! parent with
      | None => raise FileNotFoundError w
      | Some (File _) => raise NotADirectoryError w
      | Some Dir =>
          match fs w !! p with
          | Some _ => raise FileExistsError w
          | None => write p Dir w
          end
      end
  end.

(** [Path.mkdir(parents=False, exist_ok=True)]: an error other than the
    missing parent is swallowed when the path is a directory. *)
Definition mkdir_exist_ok (p : path) : io unit := fun w =>
  match os_mkdir p w with
  | (Raise FileNotFoundError, w') => (Raise FileNotFoundError, w')
  | (Raise e, w') =>
      if bool_decide (fs w' !! p = Some Dir) then (Return tt, w') else (Raise e, w')
  | (Return tt, w') => (Return tt, w')
  end.

(** [Path.mkdir(parents=True, exist_ok=True)]: on a missing parent, make the
    parent the same way and try again. *)
Fixpoint mkdir_parents (p : path) : io unit := fun w =>
  match os_mkdir p w with
  | (Raise FileNotFoundError, w') =>
      match p with
      | [] => (Raise FileNotFoundError, w')
      | _ :: parent => (mkdir_parents parent;; mkdir_exist_ok p) w'
      end
  | (Raise e, w') =>
      if bool_decide (fs w' !! p = Some Dir) then (Return tt, w') else (Raise e, w')
  | (Return tt, w') => (Return tt, w')
  end.

(** The names of the entries of the directory [p]. *)
Definition child_name (p q : path) : option string :=
  match q with
  | name :: parent => if decide (parent = p) then Some name else None
  | [] => None
  end.

Definition children (m : gmap path node) (p : path) : gset string :=
  set_omap (child_name p) (dom m).

(** [Path.iterdir], read in full before the loop body runs. *)
Definition iterdir (p : path) : io (list string) := fun w =>
  match fs w !! p with
  | None => raise FileNotFoundError w
  | Some (File _) => raise NotADirectoryError w
  | Some Dir => (Return (elements (children (fs w) p)), w)
  end.

(** [shutil.copyfile(src, dst)]: refuses to copy a file onto itself, reads
    [src], which must be a regular file, and creates or overwrites [dst],
    which must not be a directory and whose parent must be one. *)
Definition copyfile (src dst : path) : io unit := fun w =>
  if bool_decide (src = dst /\ is_Some (fs w !! src)) then raise SameFileError w
  else
    match fs w !! src with
    | None => raise FileNotFoundError w
    | Some Dir => raise IsADirectoryError w
    | Some (File content) =>
        match dst with
        | [] => raise IsADirectoryError w
        | _ :: parent =>
            match fs w !! dst with
            | Some Dir => raise IsADirectoryError w
            | _ =>
                match fs w !! parent with
                | None => raise FileNotFoundError w
                | Some (File _) => raise NotADirectoryError w
                | Some Dir => write dst (File content) w
                end
            end
        end
    end.

(** [shutil.copy2(src, dst)]: into [dst] when [dst] is a directory. *)
Definition copy2 (src dst : path) : io unit :=
  d ← is_dir dst;
  let dst' := if d : bool then hd "" src :: dst else dst in
  copyfile src dst'.

(** A [for] loop over a list. *)
Fixpoint for_in {A} (l : list A) (body : A -> io unit) : io unit :=
  match l with
  | [] => mret tt
  | a :: l' => body a;; for_in l' body
  end.

(** ** copy_directory *)

(** [limit] is the number of nested calls the interpreter still allows. *)
Fixpoint copy_directory (limit : nat) (source_dir target_dir : path) : io unit :=
  match limit with
  | O => raise RecursionError
  | S limit' =>
      found ← exists_ source_dir;
      if negb found then
        logging ERROR ("Source directory not found: " +:+ path_str source_dir);;
        raise FileNotFoundError
      else
        mkdir_parents target_dir;;
        logging INFO ("Created/verified target directory: " +:+ path_str target_dir);;
        items ← iterdir source_dir;
        for_in items (fun name =>
          let item := name :: source_dir in
          let target_item := name :: target_dir in
          d ← is_dir item;
          if d : bool then copy_directory limit' item target_item
          else
            copy2 item target_item;;
            logging INFO ("Copied file: " +:+ name))
  end.

(** ** Notions used to state the properties *)

(** Every entry but the root lies in a directory, and the root is one. *)
Definition wf (m : gmap path node) : Prop :=
  m !! [] = Some Dir /\
  forall name parent, is_Some (m !! (name :: parent)) -> m !! parent = Some Dir.

(** Neither path is the other or lies below the other. [suffix p q] says
    that [q] is [p] or lies below [p]. *)
Definition unrelated (p q : path) : Prop := ~ suffix p q /\ ~ suffix q p.

(** No file stands where the target directory or one of its parents has to
    be. *)
Definition clear_path (m : gmap path node) (t : path) : Prop :=
  forall q c, suffix q t -> m !! q <> Some (File c).




(** What making the directory [p] and its parents may change: nothing but
    missing parents of [p], and [p], made directories. *)
Definition made_dirs (p : path) (w w' : world) : Prop :=
  log w' = log w /\
  (forall q, fs w' !! q = fs w !! q \/
             (suffix q p /\ fs w !! q = None /\ fs w' !! q = Some Dir)) /\
  (wf (fs w) -> wf (fs w')).

(** What a run on the target [t] may change: entries keep their kind,
    and outside [t] nothing changes but for parents of [t] that are made. *)
Definition grows (t : path) (w w' : world) : Prop :=
  (forall q, fs w !! q = Some Dir -> fs w' !! q = Some Dir) /\
  (forall q c, fs w !! q = Some (File c) -> exists c', fs w' !! q = Some (File c')) /\
  (forall q, ~ suffix t q ->
             fs w' !! q = fs w !! q \/ (suffix q t /\ fs w' !! q = Some Dir)) /\
  (wf (fs w) -> wf (fs w')).



(** ** Decision procedures for these notions, to check concrete inputs *)

Definition wf_check (m : gmap path node) : bool :=
  bool_decide (m !! [] = Some Dir) &&
  forallb (fun q : path =>
             match q with
             | [] => true
             | _ :: parent => bool_decide (m !! parent = Some Dir)
             end)
          (elements (dom m)).

Definition unrelated_check (p q : path) : bool :=
  bool_decide (~ suffix p q) && bool_decide (~ suffix q p).

Fixpoint parents (t : path) : list path :=
  t :: match t with
       | [] => []
       | _ :: parent => parents parent
       end.

Definition clear_path_check (m : gmap path node) (t : path) : bool :=
  forallb (fun q => match m !! q with Some (File _) => false | _ => true end)
          (parents t).



(** ** A small file system to run it on *)

(** [/src/a.txt], [/src/sub/b.txt], and a [/dst/a.txt] to overwrite. *)
Definition demo_fs : gmap path node :=
  <[ ["a.txt"; "dst"] := File "old" ]>
  (<[ ["dst"] := Dir ]>
  (<[ ["b.txt"; "sub"; "src"] := File "beta" ]>
  (<[ ["sub"; "src"] := Dir ]>
  (<[ ["a.txt"; "src"] := File "alpha" ]>
  (<[ ["src"] := Dir ]>
  (<[ [] := Dir ]> ∅)))))).

Definition demo_world : world := {| fs := demo_fs; log := [] |}.

End FileProcessor.

(* ===================================================================== *)
(** * Properties of check_polygon_collision *)
(* ===================================================================== *)

Section PolygonFacts.
Import Polygon.
Local Open Scope Q_scope.

Lemma Qlt_bool_true (a b : Q) : Qlt_bool a b = true <-> a < b.
Proof.
  unfold Qlt_bool. rewrite negb_true_iff. split.
  - intros H. apply Qnot_le_lt. intros Hle. apply Qle_bool_iff in Hle. congruence.
  - intros H. destruct (Qle_bool b a) eqn:E; [|reflexivity].
    apply Qle_bool_iff in E. exfalso. apply (Qlt_not_le _ _ H E).
Qed.

Lemma Qlt_bool_false (a b : Q) : Qlt_bool a b = false <-> b <= a.
Proof.
  unfold Qlt_bool. rewrite negb_false_iff. apply Qle_bool_iff.
Qed.

Lemma Qlt_bool_spec (a b : Q) : reflect (a < b) (Qlt_bool a b).
Proof.
  destruct (Qlt_bool a b) eqn:E; constructor.
  - now apply Qlt_bool_true.
  - apply Qlt_bool_false in E. now apply Qle_not_lt.
Qed.

(** The comparison only depends on the difference of its operands. *)
Lemma Qlt_bool_diff (a b c d : Q) : b - a == d - c -> Qlt_bool a b = Qlt_bool c d.
Proof.
  intros H. destruct (Qlt_bool_spec a b), (Qlt_bool_spec c d); try reflexivity; exfalso; lra.
Qed.

(** The guard of the division: when it holds, the divisor is not zero. *)
Lemma straddles_divisor (yi yj y : Q) :
  straddles yi yj y = true -> ~ yj - yi == 0.
Proof.
  unfold straddles, Qgt_bool. intros H E.
  assert (Hij : yi == yj) by lra.
  destruct (Qlt_bool_spec y yi), (Qlt_bool_spec y yj); simpl in H; try discriminate; lra.
Qed.

Lemma straddles_equal (yi yj y : Q) : yi == yj -> straddles yi yj y = false.
Proof.
  intros E. destruct (straddles yi yj y) eqn:H; [|reflexivity].
  apply straddles_divisor in H. exfalso. lra.
Qed.

Lemma crossing_crosses (x y : Q) (pi pj : point) :
  crossing x y pi pj = Return (crosses x y pi pj).
Proof.
  unfold crossing, crosses. destruct (straddles (snd pi) (snd pj) y) eqn:H; [|reflexivity].
  apply straddles_divisor in H. unfold py_div.
  destruct (Qeq_bool (snd pj - snd pi) 0) eqn:E.
  - apply Qeq_bool_iff in E. contradiction.
  - reflexivity.
Qed.

Lemma getitem_nth {A} (l : list A) (i : nat) (d : A) :
  (i < length l)%nat -> getitem l (Z.of_nat i) = Return (nth i l d).
Proof.
  intros H. unfold getitem.
  destruct (Z.ltb_spec (Z.of_nat i) 0); [lia|].
  destruct (Z.ltb_spec (Z.of_nat i) 0); [lia|].
  destruct (Z.leb_spec (Z.of_nat (length l)) (Z.of_nat i)); [lia|]. simpl.
  rewrite Nat2Z.id. rewrite (nth_error_nth' l d H). reflexivity.
Qed.

Lemma getitem_last {A} (l : list A) (d : A) :
  l <> [] -> getitem l (Z.of_nat (length l) - 1) = Return (List.last l d).
Proof.
  intros H. destruct l as [|a l]; [congruence|].
  replace (Z.of_nat (length (a :: l)) - 1)%Z with (Z.of_nat (length l)) by (simpl length; lia).
  rewrite (getitem_nth _ _ d) by (simpl; lia).
  f_equal. clear H. revert a. induction l as [|b l IH]; intros a; [reflexivity|].
  simpl length. change (nth (S (length l)) (a :: b :: l) d) with (nth (length l) (b :: l) d).
  rewrite IH. reflexivity.
Qed.

(** The loop of [point_in_polygon], started at index [length pre] with the
    vertex [pj] at index [j], computes [walk] on the remaining vertices. *)
Lemma pip_loop (x y : Q) (suf pre : list point) (inside : bool) (j : Z) (pj : point) :
  getitem (pre ++ suf) j = Return pj ->
  exists j',
    for_each (map Z.of_nat (seq (length pre) (length suf)))
             (pip_body (x, y) (pre ++ suf)) (inside, j)
    = Return (walk x y inside pj suf, j').
Proof.
  revert pre inside j pj. induction suf as [|pi suf IH]; intros pre inside j pj Hj.
  - exists j. reflexivity.
  - simpl seq. simpl map. simpl for_each.
    assert (Hi : getitem (pre ++ pi :: suf) (Z.of_nat (length pre)) = Return pi).
    { rewrite (getitem_nth _ _ (0, 0)) by (rewrite length_app; simpl; lia).
      rewrite app_nth2 by lia. rewrite Nat.sub_diag. reflexivity. }
    rewrite Hi, Hj. simpl. rewrite crossing_crosses. simpl.
    specialize (IH (pre ++ [pi]) (xorb inside (crosses x y pi pj)) (Z.of_nat (length pre)) pi).
    rewrite <- app_assoc in IH. simpl in IH.
    destruct (IH Hi) as [j' Hj']. exists j'.
    rewrite length_app in Hj'. simpl in Hj'. rewrite Nat.add_1_r in Hj'.
    destruct (crosses x y pi pj); destruct inside; exact Hj'.
Qed.

Lemma point_in_polygon_inside (pt : point) (poly : polygon) :
  point_in_polygon pt poly = Return (inside_polygon pt poly).
Proof.
  destruct pt as [x y]. unfold point_in_polygon, inside_polygon, range.
  destruct poly as [|p poly]; [reflexivity|].
  destruct (pip_loop x y (p :: poly) [] false (Z.of_nat (length (p :: poly)) - 1)
              (List.last (p :: poly) (0, 0))) as [j' Hj'].
  - simpl app. apply getitem_last. discriminate.
  - simpl app in Hj'. simpl length in Hj' at 1. rewrite Hj'. reflexivity.
Qed.

Lemma comprehension_map {A B} (f : A -> result B) (g : A -> B) (l : list A) :
  (forall a, In a l -> f a = Return (g a)) -> comprehension f l = Return (map g l).
Proof.
  induction l as [|a l IH]; intros H; [reflexivity|].
  simpl. rewrite (H a) by (left; reflexivity). simpl.
  rewrite IH by (intros b Hb; apply H; right; exact Hb). reflexivity.
Qed.

Lemma get_edges_edges_of (poly : polygon) : get_edges poly = Return (edges_of poly).
Proof.
  unfold get_edges, edges_of, range.
  rewrite (comprehension_map _ (fun i => edge_at poly (Z.to_nat i))).
  - rewrite map_map. f_equal. apply map_ext. intros i. rewrite Nat2Z.id. reflexivity.
  - intros i Hi. apply in_map_iff in Hi. destruct Hi as [k [<- Hk]].
    apply in_seq in Hk. rewrite Nat2Z.id.
    rewrite (getitem_nth _ _ (0, 0)) by lia. simpl.
    unfold py_mod. destruct (Z.eqb_spec (Z.of_nat (length poly)) 0); [lia|]. simpl.
    replace ((Z.of_nat k + 1) mod Z.of_nat (length poly))%Z
      with (Z.of_nat ((k + 1) mod length poly)).
    + rewrite (getitem_nth _ _ (0, 0)); [reflexivity|].
      apply Nat.mod_upper_bound. lia.
    + rewrite Nat2Z.inj_mod. f_equal. lia.
Qed.

Lemma any_vertex_inside_closed (pts : list point) (poly : polygon) :
  any_vertex_inside pts poly =
  (vertex_checks pts poly, Return (existsb (fun pt => inside_polygon pt poly) pts)).
Proof.
  unfold vertex_checks. induction pts as [|pt rest IH]; [reflexivity|].
  simpl. unfold call_point_in_polygon. rewrite point_in_polygon_inside.
  destruct (inside_polygon pt poly); [reflexivity|].
  rewrite IH. reflexivity.
Qed.

Lemma any_intersect_closed (pairs : list (edge * edge)) :
  any_intersect pairs =
  (map (fun p => Intersect (fst p) (snd p)) (through_first intersecting pairs),
   Return (existsb intersecting pairs)).
Proof.
  induction pairs as [|[e1 e2] rest IH]; [reflexivity|].
  simpl. unfold intersecting at 1 3. simpl.
  destruct (line_segments_intersect e1 e2); [reflexivity|].
  rewrite IH. reflexivity.
Qed.

(** The whole computation in closed form: the trace and the outcome. *)
Lemma check_polygon_collision_traced_closed (A B : polygon) :
  check_polygon_collision_traced A B =
  if existsb (fun pt => inside_polygon pt B) A then
    (vertex_checks A B, Return true)
  else if existsb (fun pt => inside_polygon pt A) B then
    (vertex_checks A B ++ vertex_checks B A, Return true)
  else
    (vertex_checks A B ++ vertex_checks B A ++ edge_checks A B,
     Return (existsb intersecting (edge_pairs (edges_of A) (edges_of B)))).
Proof.
  unfold check_polygon_collision_traced.
  rewrite (any_vertex_inside_closed A B). simpl.
  destruct (existsb (fun pt => inside_polygon pt B) A).
  { simpl. rewrite app_nil_r. reflexivity. }
  rewrite (any_vertex_inside_closed B A). simpl.
  destruct (existsb (fun pt => inside_polygon pt A) B).
  { simpl. rewrite app_nil_r. reflexivity. }
  unfold lift. rewrite !get_edges_edges_of. simpl.
  rewrite any_intersect_closed. reflexivity.
Qed.

Lemma check_polygon_collision_closed (A B : polygon) :
  check_polygon_collision A B =
  Return (existsb (fun pt => inside_polygon pt B) A
          || existsb (fun pt => inside_polygon pt A) B
          || existsb intersecting (edge_pairs (edges_of A) (edges_of B))).
Proof.
  unfold check_polygon_collision. rewrite check_polygon_collision_traced_closed.
  destruct (existsb (fun pt => inside_polygon pt B) A); [reflexivity|].
  destruct (existsb (fun pt => inside_polygon pt A) B); reflexivity.
Qed.

Lemma in_edge_pairs (E1 E2 : list edge) (e1 e2 : edge) :
  In (e1, e2) (edge_pairs E1 E2) <-> In e1 E1 /\ In e2 E2.
Proof.
  unfold edge_pairs. rewrite in_flat_map. split.
  - intros [x [Hx H]]. apply in_map_iff in H. destruct H as [y [Hy H]].
    inversion Hy; subst. split; assumption.
  - intros [H1 H2]. exists e1. split; [assumption|].
    apply in_map_iff. exists e2. split; [reflexivity|assumption].
Qed.




(** ** Symmetry *)







(** ** Totality *)


(** ** Polygons separated by a line *)











Lemma existsb_false {A} (f : A -> bool) (l : list A) :
  (forall a, In a l -> f a = false) -> existsb f l = false.
Proof.
  intros H. destruct (existsb f l) eqn:E; [|reflexivity].
  apply existsb_exists in E. destruct E as [a [Ha Hf]]. rewrite (H a Ha) in Hf. discriminate.
Qed.







(** ** The examples of the specification *)

(** C4. The small square inside the large one collides, and is detected by
    the very first vertex check, no pair of edges intersecting; the two far
    apart unit squares do not collide; the two overlapping squares of the
    demo collide. *)
Theorem check_polygon_collision_examples :
  check_polygon_collision (square 1 2) (square 0 5) = Return true /\
  check_polygon_collision_traced (square 1 2) (square 0 5)
    = ([InPolygon (1, 1) (square 0 5)], Return true) /\
  (exists E1 E2,
      get_edges (square 1 2) = Return E1 /\ get_edges (square 0 5) = Return E2 /\
      forallb (fun e1 => forallb (fun e2 => negb (line_segments_intersect e1 e2)) E2) E1
      = true) /\
  check_polygon_collision (square 0 1) (square 10 11) = Return false /\
  check_polygon_collision demo_polygon1 demo_polygon2 = Return true.
Proof.
  split; [vm_compute; reflexivity|].
  split; [vm_compute; reflexivity|].
  split.
  { eexists. eexists. split; [vm_compute; reflexivity|].
    split; [vm_compute; reflexivity|]. vm_compute. reflexivity. }
  split; vm_compute; reflexivity.
Qed.


(** The converse direction fails as well: a triangle listed clockwise does
    not collide with itself, although the two polygons coincide. *)
Remark clockwise_triangle_self :
  check_polygon_collision [(0, 0); (0, 2); (1, 1)] [(0, 0); (0, 2); (1, 1)]
  = Return false.
Proof. vm_compute. reflexivity. Qed.

End PolygonFacts.

(* ===================================================================== *)
(** * Properties of DataStorage *)
(* ===================================================================== *)

Section DataStorageFacts.
Local Open Scope string_scope.

Lemma delete_present (s : DataStorage.t) (k v : string) :
  DataStorage._data s !! k = Some v ->
  DataStorage.delete s k
  = Return (DataStorage.info
              {| DataStorage._data := base.delete k (DataStorage._data s);
                 DataStorage.log := DataStorage.log s |}
              ("Deleted key: " +:+ k)).
Proof.
  intros H. unfold DataStorage.delete, DataStorage.dict_del. rewrite H.
  rewrite bool_decide_eq_true_2 by eauto. reflexivity.
Qed.

Lemma delete_absent (s : DataStorage.t) (k : string) :
  DataStorage._data s !! k = None -> DataStorage.delete s k = Return s.
Proof.
  intros H. unfold DataStorage.delete. rewrite H.
  rewrite bool_decide_eq_false_2; [reflexivity|]. intros [v Hv]. discriminate.
Qed.

(** [delete] never raises, and its dictionary is the old one without [k]. *)
Lemma delete_data (s : DataStorage.t) (k : string) :
  exists s', DataStorage.delete s k = Return s' /\
             DataStorage._data s' = base.delete k (DataStorage._data s).
Proof.
  destruct (DataStorage._data s !! k) as [v|] eqn:E.
  - eexists. split; [apply (delete_present s k v E)|]. reflexivity.
  - exists s. split; [apply (delete_absent s k E)|].
    symmetry. apply delete_id. exact E.
Qed.

(** C6. After [add(k, v)] and then [delete(k)], which raises nothing,
    [get(k)] returns ["Key not found"] and the dictionary returned by
    [list()] has no entry for [k]. *)
Theorem add_delete_get (s : DataStorage.t) (k v : string) :
  exists s', DataStorage.delete (DataStorage.add s k v) k = Return s' /\
             fst (DataStorage.get s' k) = "Key not found" /\
             fst (DataStorage.list s') !! k = None /\
             k ∉ dom (fst (DataStorage.list s')).
Proof.
  destruct (delete_data (DataStorage.add s k v) k) as [s' [Hd Hdata]].
  exists s'. split; [exact Hd|].
  assert (Hk : DataStorage._data s' !! k = None).
  { rewrite Hdata. apply lookup_delete_eq. }
  unfold DataStorage.get, DataStorage.list, DataStorage.dict_get. simpl.
  rewrite Hk. split; [reflexivity|]. split; [reflexivity|].
  apply not_elem_of_dom. exact Hk.
Qed.

(** C9. [delete(k)] raises nothing and leaves the entry of every other key
    as it was; when [k] is absent it leaves the whole state as it was. *)
Theorem delete_frame (s : DataStorage.t) (k : string) :
  (exists s', DataStorage.delete s k = Return s' /\
              forall j, j <> k -> DataStorage._data s' !! j = DataStorage._data s !! j) /\
  (DataStorage._data s !! k = None -> DataStorage.delete s k = Return s).
Proof.
  split.
  - destruct (delete_data s k) as [s' [Hd Hdata]]. exists s'. split; [exact Hd|].
    intros j Hj. rewrite Hdata. apply lookup_delete_ne. congruence.
  - apply delete_absent.
Qed.

(** The store of the demo after both [add]s: deleting ["key1"] keeps
    ["key2"], and deleting the absent ["key3"] changes nothing. *)
Lemma delete_frame_witness :
  let s := DataStorage.add (DataStorage.add (DataStorage.init []) "key1" "value1")
                           "key2" "value2" in
  (exists s', DataStorage.delete s "key1" = Return s' /\
              DataStorage._data s' !! "key2" = Some "value2") /\
  DataStorage.delete s "key3" = Return s.
Proof.
  intros s. destruct (delete_frame s "key1") as [[s' [Hd Hf]] _]. split.
  - exists s'. split; [exact Hd|]. rewrite (Hf "key2") by discriminate.
    vm_compute. reflexivity.
  - apply (delete_frame s "key3"). vm_compute. reflexivity.
Defined.

(** C10. After [add(k, "Key not found")] the key [k] is present, yet
    [get(k)] returns the very string it returns for an absent key. *)
Theorem sentinel_ambiguous (s : DataStorage.t) (k : string) :
  let present := DataStorage.add s k "Key not found" in
  DataStorage._data present !! k = Some "Key not found" /\
  k ∈ dom (DataStorage._data present) /\
  fst (DataStorage.get present k) = "Key not found" /\
  exists absent, DataStorage.delete present k = Return absent /\
                 DataStorage._data absent !! k = None /\
                 fst (DataStorage.get absent k) = fst (DataStorage.get present k).
Proof.
  intros present.
  assert (Hp : DataStorage._data present !! k = Some "Key not found").
  { unfold present, DataStorage.add. simpl. apply lookup_insert_eq. }
  split; [exact Hp|]. split; [apply elem_of_dom; eauto|].
  assert (Hg : fst (DataStorage.get present k) = "Key not found").
  { unfold DataStorage.get, DataStorage.dict_get. cbn [fst]. rewrite Hp. reflexivity. }
  split; [exact Hg|].
  destruct (delete_data present k) as [absent [Hd Hdata]].
  exists absent. split; [exact Hd|].
  assert (Hk : DataStorage._data absent !! k = None).
  { rewrite Hdata. apply lookup_delete_eq. }
  split; [exact Hk|]. rewrite Hg.
  unfold DataStorage.get, DataStorage.dict_get. cbn [fst]. rewrite Hk. reflexivity.
Qed.

End DataStorageFacts.

(* ===================================================================== *)
(** * Properties of find_top_k_frequent_words *)
(* ===================================================================== *)

Section WordCountFacts.
Import WordCount.
Local Open Scope string_scope.

(** C7. On the demo text and [k = 2] the result has exactly two pairs, the
    words ["hello"] and ["test"], each with count 3; the tokens are the
    lower-cased alphanumeric words of the text. *)
Theorem find_top_k_frequent_words_demo :
  findall_words (lower demo_text)
  = ["hello"; "world"; "hello"; "everyone"; "this"; "is"; "a"; "simple";
     "test"; "test"; "test"; "hello"] /\
  find_top_k_frequent_words demo_text 2 = [("hello", 3%Z); ("test", 3%Z)] /\
  exists w1 w2,
    find_top_k_frequent_words demo_text 2 = [(w1, 3%Z); (w2, 3%Z)] /\
    ((w1 = "test" /\ w2 = "hello") \/ (w1 = "hello" /\ w2 = "test")).
Proof.
  split; [vm_compute; reflexivity|].
  split; [vm_compute; reflexivity|].
  exists "hello", "test". split; [vm_compute; reflexivity|].
  right. split; reflexivity.
Qed.

End WordCountFacts.

(* ===================================================================== *)
(** * Properties of copy_directory *)
(* ===================================================================== *)

Section FileProcessorFacts.
Import FileProcessor.

Lemma bind_run {A B} (m : io A) (f : A -> io B) (w : world) :
  (m ≫= f) w = match m w with
               | (Raise e, w') => (Raise e, w')
               | (Return a, w') => f a w'
               end.
Proof. reflexivity. Qed.

(** *** os.mkdir and Path.mkdir *)

Lemma os_mkdir_cases (p : path) (w : world) :
  (exists e, os_mkdir p w = (Raise e, w) /\
             (e = FileNotFoundError ->
              exists name parent, p = name :: parent /\ fs w !! parent = None)) \/
  (exists name parent, p = name :: parent /\ fs w !! parent = Some Dir /\
                       fs w !! p = None /\
                       os_mkdir p w = (Return tt, {| fs := <[p := Dir]> (fs w); log := log w |})).
Proof.
  unfold os_mkdir, raise, write. destruct p as [|name parent].
  { left. exists FileExistsError. split; [reflexivity|discriminate]. }
  destruct (fs w !! parent) as [[c|]|] eqn:Hp.
  - left. exists NotADirectoryError. split; [reflexivity|discriminate].
  - destruct (fs w !! (name :: parent)) eqn:Hq.
    + left. exists FileExistsError. split; [reflexivity|discriminate].
    + right. exists name, parent. auto.
  - left. exists FileNotFoundError. split; [reflexivity|]. intros _. eauto.
Qed.

Lemma wf_insert_dir (m : gmap path node) (name : string) (parent : path) :
  wf m -> m !! parent = Some Dir -> m !! (name :: parent) = None ->
  wf (<[name :: parent := Dir]> m).
Proof.
  intros [Hroot Hwf] Hp Hq. split.
  - rewrite lookup_insert_ne by discriminate. exact Hroot.
  - intros n q [e He]. destruct (decide (name :: parent = n :: q)) as [E|E].
    + inversion E; subst. rewrite lookup_insert_ne.
      * exact Hp.
      * intros E'. apply (f_equal length) in E'. simpl in E'. lia.
    + rewrite lookup_insert_ne in He by exact E.
      assert (Hq' : m !! q = Some Dir) by (apply (Hwf n); eauto).
      destruct (decide (name :: parent = q)) as [<-|E'].
      * rewrite Hq in Hq'. discriminate.
      * rewrite lookup_insert_ne by exact E'. exact Hq'.
Qed.

Lemma wf_insert_file (m : gmap path node) (name : string) (parent : path) (c : string) :
  wf m -> m !! parent = Some Dir -> m !! (name :: parent) <> Some Dir ->
  wf (<[name :: parent := File c]> m).
Proof.
  intros [Hroot Hwf] Hp Hq. split.
  - rewrite lookup_insert_ne by discriminate. exact Hroot.
  - intros n q [e He]. destruct (decide (name :: parent = n :: q)) as [E|E].
    + inversion E; subst. rewrite lookup_insert_ne.
      * exact Hp.
      * intros E'. apply (f_equal length) in E'. simpl in E'. lia.
    + rewrite lookup_insert_ne in He by exact E.
      assert (Hq' : m !! q = Some Dir) by (apply (Hwf n); eauto).
      destruct (decide (name :: parent = q)) as [<-|E'].
      * contradiction.
      * rewrite lookup_insert_ne by exact E'. exact Hq'.
Qed.

(** In a well-formed file system, the parents of an entry are directories. *)
Lemma wf_parents (m : gmap path node) (rel q : path) :
  wf m -> is_Some (m !! (rel ++ q)) -> rel <> [] -> m !! q = Some Dir.
Proof.
  intros [Hroot Hwf]. induction rel as [|name rel IH]; intros H Hne; [congruence|].
  simpl in H. apply Hwf in H. destruct rel as [|name' rel'].
  - exact H.
  - apply IH; [rewrite H; eauto | discriminate].
Qed.


Lemma made_dirs_refl (p : path) (w : world) : made_dirs p w w.
Proof. split; [reflexivity|]. split; [left; reflexivity | auto]. Qed.

Lemma made_dirs_trans (p p' : path) (w w1 w2 : world) :
  suffix p p' -> made_dirs p w w1 -> made_dirs p' w1 w2 -> made_dirs p' w w2.
Proof.
  intros Hs (Hl1 & Hc1 & Hw1) (Hl2 & Hc2 & Hw2). split; [congruence|]. split; [|auto].
  intros q. destruct (Hc2 q) as [E2|(S2 & N2 & D2)], (Hc1 q) as [E1|(S1 & N1 & D1)].
  - left. congruence.
  - right. split; [etrans; eassumption|]. split; [exact N1|]. congruence.
  - right. split; [exact S2|]. split; [congruence|exact D2].
  - congruence.
Qed.

Lemma made_dirs_insert (name : string) (parent : path) (w : world) :
  fs w !! parent = Some Dir -> fs w !! (name :: parent) = None ->
  made_dirs (name :: parent) w
            {| fs := <[name :: parent := Dir]> (fs w); log := log w |}.
Proof.
  intros Hp Hq. split; [reflexivity|]. split.
  - intros q. simpl. destruct (decide (name :: parent = q)) as [<-|E].
    + right. split; [reflexivity|]. split; [exact Hq|apply lookup_insert_eq].
    + left. apply lookup_insert_ne. exact E.
  - simpl. intros Hwf. apply wf_insert_dir; assumption.
Qed.

Ltac kept_world B :=
  let E := fresh "E" in
  split; [apply made_dirs_refl|];
  split; [intros E; try discriminate E; apply bool_decide_eq_true_1 in B; congruence
         |try discriminate].

Lemma mkdir_exist_ok_effect (p : path) (w w' : world) (r : result unit) :
  mkdir_exist_ok p w = (r, w') ->
  made_dirs p w w' /\
  (r = Return tt -> fs w' !! p = Some Dir) /\
  (r = Raise FileNotFoundError ->
   exists name parent, p = name :: parent /\ fs w !! parent = None).
Proof.
  unfold mkdir_exist_ok, os_mkdir, raise, write. destruct p as [|name parent].
  - destruct (bool_decide (fs w !! [] = Some Dir)) eqn:B; intros H; inversion H; subst;
      kept_world B.
  - destruct (fs w !! parent) as [[c|]|] eqn:Hp.
    + destruct (bool_decide (fs w !! (name :: parent) = Some Dir)) eqn:B;
        intros H; inversion H; subst; kept_world B.
    + destruct (fs w !! (name :: parent)) as [e|] eqn:Hq; cbn [fst snd].
      * rewrite ?Hq. destruct (bool_decide (Some e = Some Dir)) eqn:B;
          intros H; inversion H; subst; kept_world B.
      * intros H. inversion H; subst. split; [apply made_dirs_insert; assumption|].
        split; [|discriminate]. intros _. simpl. apply lookup_insert_eq.
    + intros H. inversion H; subst. split; [apply made_dirs_refl|].
      split; [discriminate|]. intros _. eauto.
Qed.

(** [Path.mkdir(parents=True, exist_ok=True)] makes nothing but directories
    on the way to [p], never raises [FileNotFoundError], and leaves [p] a
    directory when it returns. *)
Lemma mkdir_parents_effect (p : path) (w w' : world) (r : result unit) :
  mkdir_parents p w = (r, w') ->
  made_dirs p w w' /\
  (r = Return tt -> fs w' !! p = Some Dir) /\
  r <> Raise FileNotFoundError.
Proof.
  revert w w' r. induction p as [|name parent IH]; intros w w' r.
  - simpl. unfold raise.
    destruct (bool_decide (fs w !! [] = Some Dir)) eqn:B; intros H; inversion H; subst;
      kept_world B.
  - simpl. unfold os_mkdir, raise, write.
    destruct (fs w !! parent) as [[c|]|] eqn:Hp.
    + destruct (bool_decide (fs w !! (name :: parent) = Some Dir)) eqn:B;
        intros H; inversion H; subst; kept_world B.
    + destruct (fs w !! (name :: parent)) as [e|] eqn:Hq; cbn [fst snd].
      * rewrite ?Hq. destruct (bool_decide (Some e = Some Dir)) eqn:B;
          intros H; inversion H; subst; kept_world B.
      * intros H. inversion H; subst. split; [apply made_dirs_insert; assumption|].
        split; [|discriminate]. intros _. simpl. apply lookup_insert_eq.
    + rewrite bind_run. destruct (mkdir_parents parent w) as [r1 w1] eqn:H1.
      destruct (IH _ _ _ H1) as (M1 & D1 & N1).
      assert (Hsuf : suffix parent (name :: parent)) by (exists [name]; reflexivity).
      destruct r1 as [e|[]].
      * intros H. inversion H; subst. split.
        { apply (made_dirs_trans parent _ _ _ _ Hsuf M1). apply made_dirs_refl. }
        split; [discriminate|exact N1].
      * intros H. destruct (mkdir_exist_ok_effect _ _ _ _ H) as (M2 & D2 & N2).
        split; [apply (made_dirs_trans parent _ _ _ _ Hsuf M1 M2)|].
        split; [exact D2|]. intros E. destruct (N2 E) as (n & q & Epq & Hnone).
        inversion Epq; subst. rewrite D1 in Hnone by reflexivity. discriminate.
Qed.

(** It returns when the file system is well-formed and no file is in the
    way. *)
Lemma mkdir_parents_returns (p : path) (w : world) :
  fs w !! [] = Some Dir -> clear_path (fs w) p ->
  exists w', mkdir_parents p w = (Return tt, w').
Proof.
  revert w. induction p as [|name parent IH]; intros w Hroot Hclear.
  - simpl. unfold raise. rewrite bool_decide_eq_true_2 by exact Hroot. eauto.
  - assert (Hsuf : suffix parent (name :: parent)) by (exists [name]; reflexivity).
    assert (Hnf : forall w0 : world,
               fs w0 !! (name :: parent) = fs w !! (name :: parent) ->
               fs w0 !! parent = Some Dir ->
               exists w', mkdir_exist_ok (name :: parent) w0 = (Return tt, w')).
    { intros w0 E0 Hp0. unfold mkdir_exist_ok, os_mkdir, raise, write. rewrite Hp0.
      destruct (fs w0 !! (name :: parent)) as [[c|]|] eqn:Hq.
      - exfalso. apply (Hclear (name :: parent) c); [reflexivity|congruence].
      - rewrite bool_decide_eq_true_2 by exact Hq. eauto.
      - eauto. }
    simpl. unfold os_mkdir, raise, write.
    destruct (fs w !! parent) as [[c|]|] eqn:Hp.
    + exfalso. apply (Hclear parent c); assumption.
    + destruct (Hnf w eq_refl Hp) as [w' Hw'].
      unfold mkdir_exist_ok, os_mkdir, raise, write in Hw'. rewrite Hp in Hw'.
      destruct (fs w !! (name :: parent)) as [e|] eqn:Hq; [|eauto].
      destruct (bool_decide (fs w !! (name :: parent) = Some Dir)); [eauto|discriminate].
    + rewrite bind_run.
      destruct (IH w Hroot) as [w1 H1].
      { intros q c Hq. apply Hclear. etrans; eassumption. }
      rewrite H1. destruct (mkdir_parents_effect _ _ _ _ H1) as ((_ & M1 & _) & D1 & _).
      apply Hnf; [|apply D1; reflexivity].
      destruct (M1 (name :: parent)) as [E|(S1 & _)]; [exact E|].
      apply suffix_length in S1. simpl in S1. lia.
Qed.

(** *** What a run may change *)

Lemma grows_refl (t : path) (w : world) : grows t w w.
Proof.
  split; [auto|]. split; [eauto|]. split; [left; reflexivity|auto].
Qed.

Lemma grows_same_fs (t : path) (w w' : world) : fs w' = fs w -> grows t w w'.
Proof.
  intros E. unfold grows. rewrite E.
  split; [auto|]. split; [eauto|]. split; [left; reflexivity|auto].
Qed.

Lemma grows_trans (t : path) (w1 w2 w3 : world) :
  grows t w1 w2 -> grows t w2 w3 -> grows t w1 w3.
Proof.
  intros (D1 & F1 & C1 & W1) (D2 & F2 & C2 & W2).
  split; [auto|]. split; [|split; [|auto]].
  - intros q c H. destruct (F1 q c H) as [c' H']. eauto.
  - intros q Hq. destruct (C1 q Hq) as [E1|[S1 E1]], (C2 q Hq) as [E2|[S2 E2]].
    + left. congruence.
    + right. auto.
    + right. split; [exact S1|]. congruence.
    + right. auto.
Qed.

(** A run on the entry [name] of the target is a run on the target. *)
Lemma grows_parent (name : string) (t : path) (w w' : world) :
  grows (name :: t) w w' -> grows t w w'.
Proof.
  intros (D & F & C & W). split; [auto|]. split; [auto|]. split; [|auto].
  intros q Hq. destruct (C q) as [E|[S E]].
  - intros [k Hk]. apply Hq. exists (k ++ [name]). rewrite <- app_assoc. exact Hk.
  - left. exact E.
  - right. split; [|exact E]. destruct S as [k Hk]. destruct k as [|n k].
    + exfalso. apply Hq. simpl in Hk. subst q. exists [name]. reflexivity.
    + inversion Hk. subst. exists k. reflexivity.
Qed.

Lemma made_dirs_grows (t : path) (w w' : world) : made_dirs t w w' -> grows t w w'.
Proof.
  intros (_ & C & W). split; [|split; [|split; [|exact W]]].
  - intros q H. destruct (C q) as [E|(_ & N & _)]; congruence.
  - intros q c H. exists c. destruct (C q) as [E|(_ & N & _)]; congruence.
  - intros q _. destruct (C q) as [E|(S & _ & E)]; auto.
Qed.

(** Writing a file at or below the target, in a directory, and not over a
    directory. *)
Lemma write_file_grows (t : path) (name : string) (parent : path) (c : string)
      (w w' : world) :
  suffix t (name :: parent) ->
  fs w !! parent = Some Dir -> fs w !! (name :: parent) <> Some Dir ->
  fs w' = <[name :: parent := File c]> (fs w) ->
  grows t w w'.
Proof.
  intros Hs Hp Hq E. unfold grows. rewrite E. split; [|split; [|split]].
  - intros q H. rewrite lookup_insert_ne; [exact H|]. intros <-. contradiction.
  - intros q c0 H. destruct (decide (name :: parent = q)) as [<-|Hne].
    + exists c. apply lookup_insert_eq.
    + exists c0. rewrite lookup_insert_ne by exact Hne. exact H.
  - intros q Hnq. left. apply lookup_insert_ne. intros <-. contradiction.
  - intros Hwf. apply wf_insert_file; assumption.
Qed.

(** *** shutil.copy2 *)

Lemma copy2_effect (src dst : path) (w w' : world) (r : result unit) :
  copy2 src dst w = (r, w') ->
  log w' = log w /\
  ((fs w' = fs w /\ r <> Return tt) \/
   (exists c name parent,
       r = Return tt /\ fs w !! src = Some (File c) /\
       fs w !! parent = Some Dir /\ fs w !! (name :: parent) <> Some Dir /\
       fs w' = <[name :: parent := File c]> (fs w) /\
       (name :: parent = dst \/ (fs w !! dst = Some Dir /\ parent = dst)))) /\
  (r = Raise FileNotFoundError ->
   fs w !! src = None \/
   (fs w !! dst <> Some Dir /\ exists n p, dst = n :: p /\ fs w !! p = None)).
Proof.
  unfold copy2. rewrite bind_run. unfold is_dir. cbv beta iota zeta.
  unfold copyfile, raise, write.
  set (dst' := if bool_decide (fs w !! dst = Some Dir) then hd ""%string src :: dst else dst).
  destruct (bool_decide (src = dst' /\ is_Some (fs w !! src))) eqn:Bsame.
  { intros H. inversion H; subst. split; [reflexivity|]. split; [left; split; [reflexivity|discriminate]|].
    discriminate. }
  destruct (fs w !! src) as [[c|]|] eqn:Hsrc.
  2:{ intros H. inversion H; subst. split; [reflexivity|].
      split; [left; split; [reflexivity|discriminate]|discriminate]. }
  2:{ intros H. inversion H; subst. split; [reflexivity|].
      split; [left; split; [reflexivity|discriminate]|]. intros _. left. reflexivity. }
  assert (Hdst' : (dst' = dst /\ fs w !! dst <> Some Dir) \/
                  (dst' = hd ""%string src :: dst /\ fs w !! dst = Some Dir)).
  { unfold dst'. destruct (bool_decide (fs w !! dst = Some Dir)) eqn:B.
    - right. apply bool_decide_eq_true_1 in B. auto.
    - left. apply bool_decide_eq_false_1 in B. auto. }
  clearbody dst'. destruct dst' as [|name parent].
  { intros H. inversion H; subst. split; [reflexivity|].
    split; [left; split; [reflexivity|discriminate]|discriminate]. }
  destruct (fs w !! (name :: parent)) as [[c'|]|] eqn:Hq.
  2:{ intros H. inversion H; subst. split; [reflexivity|].
      split; [left; split; [reflexivity|discriminate]|discriminate]. }
  all: destruct (fs w !! parent) as [[c''|]|] eqn:Hp.
  all: intros H; inversion H; subst; (split; [reflexivity|]).
  all: try (split; [left; split; [reflexivity|discriminate]|try discriminate]).
  all: try (split; [right; exists c, name, parent; simpl;
                    repeat (split; [first [reflexivity|assumption|congruence]|]);
                    destruct Hdst' as [[E ?]|[E ?]];
                    [left; exact E | right; inversion E; subst; auto]
                   |discriminate]).
  all: intros _; right; destruct Hdst' as [[E Hd]|[E Hd]].
  all: try (split; [exact Hd|]; exists name, parent; split; [congruence|assumption]).
  all: inversion E; subst; congruence.
Qed.

(** *** Loops *)

(** A property of a loop that every iteration keeps, whatever its outcome. *)
Lemma for_in_rel {A} (R : world -> world -> Prop) (l : list A) (body : A -> io unit) :
  (forall w, R w w) ->
  (forall w1 w2 w3, R w1 w2 -> R w2 w3 -> R w1 w3) ->
  (forall a w r w', In a l -> body a w = (r, w') -> R w w') ->
  forall w r w', for_in l body w = (r, w') -> R w w'.
Proof.
  intros Hrefl Htrans. induction l as [|a l IH]; intros Hbody w r w' H.
  - inversion H; subst. apply Hrefl.
  - simpl in H. rewrite bind_run in H. destruct (body a w) as [r1 w1] eqn:H1.
    assert (R1 : R w w1) by (apply (Hbody a w r1 w1); [left; reflexivity|exact H1]).
    destruct r1 as [e|[]].
    + inversion H; subst. exact R1.
    + apply (Htrans _ _ _ R1). apply (IH (fun b w0 r0 w0' Hb => Hbody b w0 r0 w0' (or_intror Hb)) _ _ _ H).
Qed.


(** *** copy_directory: what it may change *)

Lemma copy2_grows (name : string) (s t : path) (w w' : world) (r : result unit) :
  copy2 (name :: s) (name :: t) w = (r, w') -> grows t w w'.
Proof.
  intros H. destruct (copy2_effect _ _ _ _ _ H) as (_ & [[E _]|Hw] & _).
  - apply grows_same_fs. exact E.
  - destruct Hw as (c & n & parent & _ & _ & Hp & Hq & E & Hd).
    apply (write_file_grows t n parent c); try assumption.
    destruct Hd as [Hd|[_ ->]].
    + rewrite Hd. exists [name]. reflexivity.
    + exists [n; name]. reflexivity.
Qed.

Lemma copy_directory_grows (limit : nat) (s t : path) (w w' : world) (r : result unit) :
  copy_directory limit s t w = (r, w') -> grows t w w'.
Proof.
  revert s t w w' r. induction limit as [|limit IH]; intros s t w w' r.
  { simpl. unfold raise. intros H. inversion H; subst. apply grows_refl. }
  simpl. rewrite bind_run. unfold exists_. cbv beta iota zeta.
  destruct (bool_decide (is_Some (fs w !! s))); cbn [negb].
  2:{ intros H. inversion H; subst. apply grows_same_fs. reflexivity. }
  rewrite bind_run. destruct (mkdir_parents t w) as [r1 w1] eqn:H1.
  pose proof (made_dirs_grows t _ _ (proj1 (mkdir_parents_effect _ _ _ _ H1))) as G1.
  destruct r1 as [e|[]].
  { intros H. inversion H; subst. exact G1. }
  rewrite bind_run. unfold logging at 1. cbv beta iota zeta.
  set (w2 := {| fs := fs w1; log := _ |}).
  assert (G2 : grows t w w2).
  { apply (grows_trans _ _ w1); [exact G1|]. apply grows_same_fs. reflexivity. }
  clearbody w2. rewrite bind_run. unfold iterdir, raise.
  destruct (fs w2 !! s) as [[c|]|].
  1,3: intros H; inversion H; subst; exact G2.
  intros H. apply (grows_trans _ _ w2); [exact G2|].
  revert H. apply for_in_rel; [apply grows_refl | apply grows_trans |].
  clear -IH. intros name w r w' _. rewrite bind_run. unfold is_dir. cbv beta iota zeta.
  destruct (bool_decide (fs w !! (name :: s) = Some Dir)).
  - intros H. apply grows_parent with name. apply (IH _ _ _ _ _ H).
  - rewrite bind_run. destruct (copy2 (name :: s) (name :: t) w) as [r3 w3] eqn:H3.
    pose proof (copy2_grows _ _ _ _ _ _ H3) as G.
    destruct r3 as [e|[]]; unfold logging; intros H; inversion H; subst.
    + exact G.
    + apply (grows_trans _ _ w3); [exact G|]. apply grows_same_fs. reflexivity.
Qed.

(** *** copy_directory: FileNotFoundError only for a missing source *)



(** *** Paths *)

Lemma unrelated_source (s t rel : path) :
  unrelated s t -> ~ suffix t (rel ++ s) /\ ~ suffix (rel ++ s) t.
Proof.
  intros [Hst Hts]. split.
  - intros H. destruct (suffix_weak_total t s (rel ++ s) H) as [H'|H']; auto.
    apply suffix_app_r. reflexivity.
  - intros H. apply Hst. apply (suffix_app_l _ _ rel). exact H.
Qed.



Lemma suffix_cons_cases (q : path) (name : string) (t : path) :
  suffix q (name :: t) -> q = name :: t \/ suffix q t.
Proof.
  intros [[|x k] Hk].
  - left. symmetry. exact Hk.
  - right. inversion Hk. exists k. reflexivity.
Qed.

Lemma below_not_above (rel : path) (name : string) (t : path) :
  ~ suffix (rel ++ name :: t) t.
Proof.
  intros H. apply suffix_length in H. rewrite length_app in H. simpl in H. lia.
Qed.


Lemma below_target (rel : path) (name : string) (t : path) :
  suffix t (rel ++ name :: t).
Proof. exists (rel ++ [name]). rewrite <- app_assoc. reflexivity. Qed.

(** *** copy_directory: the copy *)






(** *** The decision procedures are sound *)

Lemma in_dom_elements (m : gmap path node) (q : path) :
  is_Some (m !! q) -> In q (elements (dom m)).
Proof.
  intros H. apply list_elem_of_In, elem_of_elements, elem_of_dom. exact H.
Qed.

Lemma wf_check_sound (m : gmap path node) : wf_check m = true -> wf m.
Proof.
  unfold wf_check. intros H. apply andb_true_iff in H. destruct H as [Hroot Hall].
  split; [apply bool_decide_eq_true_1 in Hroot; exact Hroot|].
  intros name parent Hq. rewrite forallb_forall in Hall.
  specialize (Hall _ (in_dom_elements _ _ Hq)). simpl in Hall.
  apply bool_decide_eq_true_1 in Hall. exact Hall.
Qed.

Lemma unrelated_check_sound (p q : path) : unrelated_check p q = true -> unrelated p q.
Proof.
  unfold unrelated_check. intros H. apply andb_true_iff in H. destruct H as [H1 H2].
  split; [apply bool_decide_eq_true_1 in H1 | apply bool_decide_eq_true_1 in H2]; assumption.
Qed.

Lemma in_parents (q t : path) : suffix q t -> In q (parents t).
Proof.
  induction t as [|name t IH]; intros H.
  - left. apply suffix_nil_inv in H. congruence.
  - apply suffix_cons_cases in H. destruct H as [->|H]; [left; reflexivity|].
    right. apply IH. exact H.
Qed.

Lemma clear_path_check_sound (m : gmap path node) (t : path) :
  clear_path_check m t = true -> clear_path m t.
Proof.
  unfold clear_path_check. rewrite forallb_forall. intros Hall q c Hq Hfile.
  specialize (Hall q (in_parents q t Hq)). rewrite Hfile in Hall. discriminate.
Qed.



(** *** The specification of copy_directory *)



End FileProcessorFacts.

(* ===================================================================== *)
(** * Further properties of DataStorage *)
(* ===================================================================== *)

Module StorageClient.

(** A call of a method of [DataStorage], as a client makes it. *)
Inductive call : Type :=
| Add (key value : string)
| Get (key : string)
| Delete (key : string)
| List.

(** The storage after one call; the value a call returns is dropped. *)
Definition perform (c : call) (self : DataStorage.t) : result DataStorage.t :=
  match c with
  | Add key value => Return (DataStorage.add self key value)
  | Get key => Return (snd (DataStorage.get self key))
  | Delete key => DataStorage.delete self key
  | List => Return (snd (DataStorage.list self))
  end.

(** The storage after a sequence of calls, stopping at the first that
    raises. *)
Fixpoint perform_all (cs : list call) (self : DataStorage.t) : result DataStorage.t :=
  match cs with
  | [] => Return self
  | c :: cs' => self' ← perform c self; perform_all cs' self'
  end.

(** The calls that log nothing: [delete] of a key that is absent at the
    moment of the call. *)
Fixpoint silent_calls (cs : list call) (d : gmap string string) : nat :=
  match cs with
  | [] => 0
  | Add key value :: cs' => silent_calls cs' (<[key := value]> d)
  | Delete key :: cs' =>
      match d !! key with
      | Some _ => silent_calls cs' (base.delete key d)
      | None => S (silent_calls cs' d)
      end
  | _ :: cs' => silent_calls cs' d
  end.

End StorageClient.

Section DataStorageMore.
Import StorageClient.

(** X1. [get] after [add(k, v)] returns [v] for [k], whatever was stored
    under [k] before, and what it returned before for every other key. *)
Theorem add_get (s : DataStorage.t) (k v j : string) :
  fst (DataStorage.get (DataStorage.add s k v) j)
  = if decide (j = k) then v else fst (DataStorage.get s j).
Proof.
  unfold DataStorage.get, DataStorage.add, DataStorage.dict_get. simpl.
  destruct (decide (j = k)) as [->|Hne].
  - rewrite lookup_insert_eq. reflexivity.
  - rewrite lookup_insert_ne by congruence. reflexivity.
Qed.

(** X2. [delete(k)] after [add(k, v)] leaves the dictionary that the storage
    had before the [add], without [k]: the original one when [k] was new. A
    second [delete(k)] changes nothing at all, not even the log. *)
Theorem add_delete_restores (s : DataStorage.t) (k v : string) :
  exists s1,
    DataStorage.delete (DataStorage.add s k v) k = Return s1 /\
    DataStorage._data s1 = base.delete k (DataStorage._data s) /\
    (DataStorage._data s !! k = None -> DataStorage._data s1 = DataStorage._data s) /\
    DataStorage.delete s1 k = Return s1.
Proof.
  destruct (delete_data (DataStorage.add s k v) k) as [s1 [Hd Hdata]].
  exists s1. split; [exact Hd|].
  assert (E : DataStorage._data s1 = base.delete k (DataStorage._data s)).
  { rewrite Hdata. unfold DataStorage.add. simpl. apply delete_insert_eq. }
  split; [exact E|]. split.
  - intros Hk. rewrite E. apply delete_id. exact Hk.
  - apply delete_absent. rewrite E. apply lookup_delete_eq.
Qed.

(** A key that was new, on the storage of the demo. *)
Lemma add_delete_restores_witness :
  exists s1,
    DataStorage.delete
      (DataStorage.add (DataStorage.add (DataStorage.init []) "key1" "value1")
                       "key2" "value2") "key2" = Return s1 /\
    DataStorage._data s1
    = DataStorage._data (DataStorage.add (DataStorage.init []) "key1" "value1").
Proof.
  destruct (add_delete_restores
              (DataStorage.add (DataStorage.init []) "key1" "value1") "key2" "value2")
    as (s1 & Hd & _ & Hnew & _).
  exists s1. split; [exact Hd|]. apply Hnew. vm_compute. reflexivity.
Defined.

(** X3. No sequence of calls raises: [delete] tests for the key before it
    removes it. The log only grows: the records present before stay, in
    order, and every call appends exactly one record, but for a [delete] of
    an absent key, which appends none. *)
Theorem calls_never_raise (cs : list call) (s : DataStorage.t) :
  exists s' new,
    perform_all cs s = Return s' /\
    DataStorage.log s' = DataStorage.log s ++ new /\
    (length new + silent_calls cs (DataStorage._data s) = length cs)%nat.
Proof.
  revert s. induction cs as [|c cs IH]; intros s.
  - exists s, []. simpl. rewrite app_nil_r. auto.
  - destruct c as [key value|key|key|]; simpl.
    + destruct (IH (DataStorage.add s key value)) as (s' & new & Hrun & Hlog & Hlen).
      exists s', ((INFO, "Added/Updated key: " +:+ key)%string :: new). split; [exact Hrun|].
      split; [rewrite Hlog; simpl; rewrite <- app_assoc; reflexivity|].
      simpl in *. lia.
    + destruct (IH (snd (DataStorage.get s key))) as (s' & new & Hrun & Hlog & Hlen).
      exists s', ((INFO, "Retrieved key: " +:+ key)%string :: new). split; [exact Hrun|].
      split; [rewrite Hlog; simpl; rewrite <- app_assoc; reflexivity|].
      simpl in *. lia.
    + destruct (DataStorage._data s !! key) as [v|] eqn:Hk.
      * rewrite (delete_present s key v Hk). simpl.
        destruct (IH (DataStorage.info
                        {| DataStorage._data := base.delete key (DataStorage._data s);
                           DataStorage.log := DataStorage.log s |}
                        ("Deleted key: " +:+ key))) as (s' & new & Hrun & Hlog & Hlen).
        exists s', ((INFO, "Deleted key: " +:+ key)%string :: new). split; [exact Hrun|].
        split; [rewrite Hlog; simpl; rewrite <- app_assoc; reflexivity|].
        simpl in *. lia.
      * rewrite (delete_absent s key Hk). simpl.
        destruct (IH s) as (s' & new & Hrun & Hlog & Hlen).
        exists s', new. split; [exact Hrun|]. split; [exact Hlog|]. lia.
    + destruct (IH (snd (DataStorage.list s))) as (s' & new & Hrun & Hlog & Hlen).
      exists s', ((INFO, "Listed all data"%string) :: new). split; [exact Hrun|].
      split; [rewrite Hlog; simpl; rewrite <- app_assoc; reflexivity|].
      simpl in *. lia.
Qed.

End DataStorageMore.

(* ===================================================================== *)
(** * Further properties of find_top_k_frequent_words *)
(* ===================================================================== *)

From Stdlib Require Import Sorting.Sorted.

Module WordCountSpec.

(** How often [w] occurs among [words]. *)
Definition occurrences (w : string) (words : list string) : Z :=
  Z.of_nat (count_occ string_dec words w).

(** The count a [Counter] holds for [w]: zero for a missing key. *)
Fixpoint count_of (c : list (string * Z)) (w : string) : Z :=
  match c with
  | [] => 0
  | (k, n) :: c' => if String.eqb k w then n else count_of c' w
  end.

(** The words [find_top_k_frequent_words] counts. *)
Definition tokens (text : string) : list string :=
  WordCount.findall_words (WordCount.lower text).

(** By decreasing count. *)
Definition count_ge (a b : string * Z) : Prop := snd b <= snd a.

(** A lower-case letter, a digit or the underscore. *)
Definition is_token_char (c : ascii) : bool :=
  WordCount.is_word_char c && negb (WordCount.is_upper c).

End WordCountSpec.

Section WordCountMore.
Import WordCount WordCountSpec.

Lemma count_of_count_word (c : list (string * Z)) (x w : string) :
  count_of (count_word c x) w = count_of c w + (if String.eqb x w then 1 else 0).
Proof.
  induction c as [|[k n] c IH]; simpl.
  - destruct (String.eqb x w); lia.
  - destruct (String.eqb k x) eqn:Ekx; simpl.
    + apply String.eqb_eq in Ekx. subst k. destruct (String.eqb x w); lia.
    + destruct (String.eqb k w) eqn:Ekw; [|exact IH].
      apply String.eqb_eq in Ekw. subst k. rewrite String.eqb_sym, Ekx. lia.
Qed.

Lemma count_of_fold (words : list string) (c : list (string * Z)) (w : string) :
  count_of (fold_left count_word words c) w = count_of c w + occurrences w words.
Proof.
  unfold occurrences. revert c. induction words as [|x words IH]; intros c; simpl.
  - lia.
  - rewrite IH, count_of_count_word. destruct (string_dec x w) as [->|Hne].
    + rewrite String.eqb_refl. lia.
    + apply String.eqb_neq in Hne. rewrite Hne. lia.
Qed.

Lemma keys_count_word (c : list (string * Z)) (x : string) :
  map fst (count_word c x)
  = if existsb (String.eqb x) (map fst c) then map fst c else map fst c ++ [x].
Proof.
  induction c as [|[k n] c IH]; simpl; [reflexivity|].
  rewrite (String.eqb_sym x k). destruct (String.eqb k x); simpl; [reflexivity|].
  rewrite IH. destruct (existsb (String.eqb x) (map fst c)); reflexivity.
Qed.

Lemma existsb_eqb_In (x : string) (l : list string) :
  existsb (String.eqb x) l = true <-> In x l.
Proof.
  rewrite existsb_exists. split.
  - intros [y [Hy E]]. apply String.eqb_eq in E. congruence.
  - intros H. exists x. split; [exact H|apply String.eqb_refl].
Qed.

Lemma keys_fold (words : list string) (c : list (string * Z)) :
  NoDup (map fst c) ->
  NoDup (map fst (fold_left count_word words c)) /\
  forall w, In w (map fst (fold_left count_word words c)) <-> In w (map fst c) \/ In w words.
Proof.
  revert c. induction words as [|x words IH]; intros c Hnd; simpl.
  - split; [exact Hnd|]. intros w. tauto.
  - assert (Hnd' : NoDup (map fst (count_word c x))).
    { rewrite keys_count_word. destruct (existsb (String.eqb x) (map fst c)) eqn:E.
      - exact Hnd.
      - apply NoDup_app. split; [exact Hnd|]. split; [|apply NoDup_singleton].
        intros y Hy Hx. apply list_elem_of_singleton in Hx. subst y.
        apply list_elem_of_In, existsb_eqb_In in Hy. congruence. }
    destruct (IH _ Hnd') as [H1 H2]. split; [exact H1|].
    intros w. rewrite H2, keys_count_word.
    destruct (existsb (String.eqb x) (map fst c)) eqn:E.
    + apply existsb_eqb_In in E. split; [tauto|]. intros [H|[<-|H]]; auto.
    + rewrite in_app_iff. simpl. tauto.
Qed.

Lemma in_count_of (c : list (string * Z)) (w : string) (n : Z) :
  NoDup (map fst c) -> In (w, n) c -> n = count_of c w.
Proof.
  induction c as [|[k m] c IH]; simpl; intros Hnd Hin; [contradiction|].
  apply NoDup_cons in Hnd. destruct Hnd as [Hk Hnd]. destruct Hin as [E|Hin].
  - inversion E; subst. rewrite String.eqb_refl. reflexivity.
  - destruct (String.eqb k w) eqn:Ekw.
    + apply String.eqb_eq in Ekw. subst k. exfalso. apply Hk.
      apply list_elem_of_In. apply (in_map fst) in Hin. exact Hin.
    + apply IH; assumption.
Qed.

(** What [Counter(words)] holds: each word once, with its number of
    occurrences. *)
Lemma in_Counter (words : list string) (w : string) (n : Z) :
  In (w, n) (Counter words) -> In w words /\ n = occurrences w words.
Proof.
  unfold Counter. intros Hin.
  destruct (keys_fold words [] (NoDup_nil_2)) as [Hnd Hkeys]. split.
  - apply (in_map fst) in Hin. apply Hkeys in Hin. simpl in Hin. tauto.
  - rewrite (in_count_of _ _ _ Hnd Hin), count_of_fold. reflexivity.
Qed.

Lemma Counter_complete (words : list string) (w : string) :
  In w words -> In (w, occurrences w words) (Counter words).
Proof.
  intros Hin. destruct (keys_fold words [] (NoDup_nil_2)) as [Hnd Hkeys].
  assert (Hk : In w (map fst (Counter words))) by (apply Hkeys; right; exact Hin).
  apply in_map_iff in Hk. destruct Hk as [[w' n] [E Hk]]. simpl in E. subst w'.
  destruct (in_Counter _ _ _ Hk) as [_ ->]. exact Hk.
Qed.

Lemma insert_desc_perm (x : string * Z) (l : list (string * Z)) :
  Permutation (insert_desc x l) (x :: l).
Proof.
  induction l as [|y l IH]; simpl; [reflexivity|].
  destruct (snd x <? snd y)%Z; [|reflexivity].
  rewrite IH. apply perm_swap.
Qed.

Lemma sorted_desc_perm (l : list (string * Z)) : Permutation (sorted_desc l) l.
Proof.
  induction l as [|x l IH]; simpl; [reflexivity|].
  rewrite insert_desc_perm, IH. reflexivity.
Qed.

Lemma insert_desc_sorted (x : string * Z) (l : list (string * Z)) :
  Sorted count_ge l -> Sorted count_ge (insert_desc x l).
Proof.
  induction l as [|y l IH]; simpl; intros Hs.
  - repeat constructor.
  - destruct (Z.ltb_spec (snd x) (snd y)) as [Hlt|Hge].
    + inversion Hs as [|? ? Hs' Hhd]; subst. constructor; [apply IH; exact Hs'|].
      destruct l as [|z l]; simpl.
      * constructor. unfold count_ge. lia.
      * destruct (snd x <? snd z)%Z; constructor.
        -- inversion Hhd. assumption.
        -- unfold count_ge. lia.
    + constructor; [exact Hs|]. constructor. unfold count_ge. lia.
Qed.

Lemma sorted_desc_sorted (l : list (string * Z)) : StronglySorted count_ge (sorted_desc l).
Proof.
  apply Sorted_StronglySorted.
  - intros a b c. unfold count_ge. lia.
  - induction l as [|x l IH]; simpl; [constructor|]. apply insert_desc_sorted. exact IH.
Qed.

Lemma in_firstn_skipn {A} (k : nat) (l : list A) (a : A) :
  In a l <-> In a (firstn k l) \/ In a (skipn k l).
Proof.
  rewrite <- in_app_iff, firstn_skipn. reflexivity.
Qed.

Lemma firstn_sorted (k : nat) (l : list (string * Z)) :
  StronglySorted count_ge l ->
  StronglySorted count_ge (firstn k l) /\
  forall a b, In a (firstn k l) -> In b (skipn k l) -> count_ge a b.
Proof.
  revert l. induction k as [|k IH]; intros l Hs.
  - simpl. split; [constructor|]. intros a b [].
  - destruct l as [|x l]; simpl.
    + split; [constructor|]. intros a b [].
    + inversion Hs as [|? ? Hs' Hall]; subst. destruct (IH l Hs') as [H1 H2].
      rewrite Forall_forall in Hall. split.
      * constructor; [exact H1|]. apply Forall_forall. intros y Hy.
        apply Hall. apply list_elem_of_In. apply list_elem_of_In in Hy.
        apply (in_firstn_skipn k). left. exact Hy.
      * intros a b [<-|Ha] Hb.
        -- apply Hall. apply list_elem_of_In. apply (in_firstn_skipn k). right. exact Hb.
        -- apply H2; assumption.
Qed.

Lemma sorted_Counter_nodup (words : list string) :
  NoDup (map fst (sorted_desc (Counter words))).
Proof.
  destruct (keys_fold words [] (NoDup_nil_2)) as [Hnd _].
  unfold Counter. rewrite (Permutation_map fst (sorted_desc_perm _)). exact Hnd.
Qed.

Lemma in_sorted_Counter (words : list string) (p : string * Z) :
  In p (sorted_desc (Counter words)) <-> In p (Counter words).
Proof.
  split; apply Permutation_in; [|symmetry]; apply sorted_desc_perm.
Qed.

Lemma top_k_in_Counter (text : string) (k : Z) (p : string * Z) :
  In p (find_top_k_frequent_words text k) -> In p (Counter (tokens text)).
Proof.
  unfold find_top_k_frequent_words, most_common. fold (tokens text). intros Hin.
  apply in_sorted_Counter. apply (in_firstn_skipn (Z.to_nat k)). left. exact Hin.
Qed.

(** X4. Every pair [find_top_k_frequent_words] returns holds a word of the
    text with the number of its occurrences among the words of the text, a
    number that is at least one; no word is returned twice. *)
Theorem top_k_counts (text : string) (k : Z) :
  NoDup (map fst (find_top_k_frequent_words text k)) /\
  forall w n, In (w, n) (find_top_k_frequent_words text k) ->
              In w (tokens text) /\ n = occurrences w (tokens text) /\ 1 <= n.
Proof.
  split.
  - unfold find_top_k_frequent_words, most_common. fold (tokens text).
    pose proof (sorted_Counter_nodup (tokens text)) as Hnd.
    rewrite <- (firstn_skipn (Z.to_nat k) (sorted_desc (Counter (tokens text)))) in Hnd.
    rewrite map_app in Hnd. apply NoDup_app in Hnd. tauto.
  - intros w n Hin. apply top_k_in_Counter in Hin.
    destruct (in_Counter _ _ _ Hin) as [Hw Hn]. split; [exact Hw|]. split; [exact Hn|].
    subst n. unfold occurrences.
    apply (count_occ_In string_dec) in Hw. lia.
Qed.

(** On the text of the demo: ["hello"] occurs three times. *)
Lemma top_k_counts_witness :
  In "hello"%string (tokens demo_text) /\
  3 = occurrences "hello" (tokens demo_text).
Proof.
  destruct (top_k_counts demo_text 2) as [_ H].
  destruct (H "hello"%string 3) as (H1 & H2 & _).
  - vm_compute. left. reflexivity.
  - split; assumption.
Defined.

(** X5. [find_top_k_frequent_words] returns at most [k] pairs, by decreasing
    count. They are the most frequent words: a word of the text that is not
    returned is left out only because [k] pairs are returned already, none of
    them with a smaller count. *)
Theorem top_k_most_frequent (text : string) (k : Z) :
  (length (find_top_k_frequent_words text k) <= Z.to_nat k)%nat /\
  StronglySorted count_ge (find_top_k_frequent_words text k) /\
  forall w, In w (tokens text) ->
            In w (map fst (find_top_k_frequent_words text k)) \/
            (length (find_top_k_frequent_words text k) = Z.to_nat k /\
             forall p, In p (find_top_k_frequent_words text k) ->
                       occurrences w (tokens text) <= snd p).
Proof.
  unfold find_top_k_frequent_words, most_common. fold (tokens text).
  set (sorted := sorted_desc (Counter (tokens text))).
  destruct (firstn_sorted (Z.to_nat k) sorted (sorted_desc_sorted _)) as [Hs Hle].
  split; [rewrite length_firstn; lia|]. split; [exact Hs|].
  intros w Hw. apply Counter_complete, in_sorted_Counter in Hw. fold sorted in Hw.
  apply (in_firstn_skipn (Z.to_nat k)) in Hw. destruct Hw as [Hw|Hw].
  - left. apply (in_map fst) in Hw. exact Hw.
  - right. split.
    + rewrite length_firstn. apply Nat.min_l.
      destruct (Nat.le_gt_cases (Z.to_nat k) (length sorted)) as [H|H]; [exact H|].
      rewrite skipn_all2 in Hw by lia. contradiction.
    + intros p Hp. apply (Hle p _ Hp Hw).
Qed.

(** On the text of the demo with [k = 2]: ["world"] is left out, with its
    one occurrence. *)
Lemma top_k_most_frequent_witness :
  occurrences "world" (tokens demo_text) <= 3.
Proof.
  destruct (top_k_most_frequent demo_text 2) as (_ & _ & H).
  destruct (H "world"%string) as [Hin|[_ Hle]].
  - vm_compute. right. left. reflexivity.
  - exfalso. vm_compute in Hin. destruct Hin as [E|[E|[]]]; discriminate.
  - apply (Hle ("hello"%string, 3)). vm_compute. left. reflexivity.
Defined.

(** *** The words *)

Lemma lower_chars (s : string) :
  list_ascii_of_string (lower s) = map lower_char (list_ascii_of_string s).
Proof.
  induction s as [|c s IH]; simpl; [reflexivity|]. rewrite IH. reflexivity.
Qed.

Lemma lower_char_not_upper (c : ascii) : is_upper (lower_char c) = false.
Proof.
  destruct c as [[] [] [] [] [] [] [] []]; reflexivity.
Qed.

Lemma lower_char_word (c : ascii) : is_word_char (lower_char c) = is_word_char c.
Proof.
  destruct c as [[] [] [] [] [] [] [] []]; reflexivity.
Qed.

(** The words [scan_words] finds are not empty, and made of word characters
    of the text. *)
Lemma scan_words_tokens (P : ascii -> Prop) (s : string) (cur : list ascii) :
  Forall P (list_ascii_of_string s) ->
  Forall (fun c => P c /\ is_word_char c = true) cur ->
  forall w, In w (scan_words s cur) ->
            w <> EmptyString /\
            Forall (fun c => P c /\ is_word_char c = true) (list_ascii_of_string w).
Proof.
  revert cur. induction s as [|c s IH]; intros cur Hs Hcur w Hw.
  - simpl in Hw. destruct cur as [|a cur]; [contradiction|].
    destruct Hw as [<-|[]]. split.
    + intros E. apply (f_equal list_ascii_of_string) in E.
      rewrite list_ascii_of_string_of_list_ascii in E. simpl in E.
      destruct (rev cur); discriminate.
    + rewrite list_ascii_of_string_of_list_ascii. apply Forall_rev. exact Hcur.
  - simpl in Hs. inversion Hs as [|? ? Hc Hs']; subst. simpl in Hw.
    destruct (is_word_char c) eqn:Ec.
    + apply (IH (c :: cur)); auto.
    + apply in_app_iff in Hw. destruct Hw as [Hw|Hw].
      * destruct cur as [|a cur]; [contradiction|]. destruct Hw as [<-|[]]. split.
        -- intros E. apply (f_equal list_ascii_of_string) in E.
           rewrite list_ascii_of_string_of_list_ascii in E. simpl in E.
           destruct (rev cur); discriminate.
        -- rewrite list_ascii_of_string_of_list_ascii. apply Forall_rev. exact Hcur.
      * apply (IH []); auto.
Qed.

Lemma scan_words_none (s : string) :
  Forall (fun c => is_word_char c = false) (list_ascii_of_string s) ->
  scan_words s [] = [].
Proof.
  induction s as [|c s IH]; simpl; intros H; [reflexivity|].
  inversion H as [|? ? Hc Hs]; subst. rewrite Hc. simpl. apply IH. exact Hs.
Qed.

(** X6. Every word [find_top_k_frequent_words] returns is a non-empty run
    of lower-case letters, digits and underscores: no upper-case letter and
    no other character is ever part of a word. *)
Theorem top_k_words_shape (text : string) (k : Z) :
  forall w n, In (w, n) (find_top_k_frequent_words text k) ->
              w <> EmptyString /\
              forallb is_token_char (list_ascii_of_string w) = true.
Proof.
  intros w n Hin. apply top_k_in_Counter in Hin.
  destruct (in_Counter _ _ _ Hin) as [Hw _]. unfold tokens, findall_words in Hw.
  destruct (scan_words_tokens (fun c => is_upper c = false) (lower text) [])
    with (w := w) as [Hne Hall]; auto.
  - rewrite lower_chars. apply Forall_forall. intros c Hc.
    apply list_elem_of_In, in_map_iff in Hc. destruct Hc as [c' [<- _]].
    apply lower_char_not_upper.
  - split; [exact Hne|]. apply forallb_forall. intros c Hc.
    rewrite Forall_forall in Hall. apply list_elem_of_In in Hc.
    destruct (Hall c Hc) as [Hu Hwc]. unfold is_token_char. rewrite Hu, Hwc. reflexivity.
Qed.

(** On the text of the demo. *)
Lemma top_k_words_shape_witness :
  "test"%string <> EmptyString /\
  forallb is_token_char (list_ascii_of_string "test") = true.
Proof.
  apply (top_k_words_shape demo_text 2 "test"%string 3).
  vm_compute. right. left. reflexivity.
Defined.

(** X7. With [k <= 0], and on a text without any letter, digit or
    underscore (the empty text is one), [find_top_k_frequent_words] returns
    the empty list. *)
Theorem top_k_empty (text : string) (k : Z) :
  (k <= 0 -> find_top_k_frequent_words text k = []) /\
  (forallb (fun c => negb (is_word_char c)) (list_ascii_of_string text) = true ->
   find_top_k_frequent_words text k = []).
Proof.
  unfold find_top_k_frequent_words, most_common. split.
  - intros Hk. replace (Z.to_nat k) with 0%nat by lia. reflexivity.
  - intros H. unfold findall_words. rewrite scan_words_none.
    + simpl. apply firstn_nil.
    + rewrite lower_chars. apply Forall_forall. intros c Hc.
      apply list_elem_of_In, in_map_iff in Hc. destruct Hc as [c' [<- Hc']].
      rewrite lower_char_word. rewrite forallb_forall in H.
      specialize (H c' Hc'). apply negb_true_iff in H. exact H.
Qed.

(** A negative [k] on the text of the demo, and a text of punctuation. *)
Lemma top_k_empty_witness :
  find_top_k_frequent_words demo_text (-1) = [] /\
  find_top_k_frequent_words "?! ... -- ;" 3 = [].
Proof.
  split.
  - destruct (top_k_empty demo_text (-1)) as [H _]. apply H. lia.
  - destruct (top_k_empty "?! ... -- ;" 3) as [_ H]. apply H. vm_compute. reflexivity.
Defined.

End WordCountMore.

(* ===================================================================== *)
(** * Further properties of check_polygon_collision *)
(* ===================================================================== *)

Module PolygonSpec.

Import Polygon.
Local Open Scope Q_scope.





End PolygonSpec.

Section PolygonMore.
Import Polygon PolygonSpec.
Local Open Scope Q_scope.









(** *** Degenerate polygons *)

Lemma straddles_sym (yi yj y : Q) : straddles yi yj y = straddles yj yi y.
Proof. unfold straddles. apply xorb_comm. Qed.

(** The crossing test does not depend on the direction of the edge. *)
Lemma crosses_sym (x y : Q) (u v : point) : crosses x y u v = crosses x y v u.
Proof.
  unfold crosses. rewrite (straddles_sym (snd u) (snd v)).
  destruct (straddles (snd v) (snd u) y) eqn:S; [|reflexivity]. simpl.
  pose proof (straddles_divisor _ _ _ S) as Hd.
  apply Qlt_bool_diff. field. split; [exact Hd|]. intros E. apply Hd. lra.
Qed.

Lemma inside_few_vertices (pt : point) (poly : polygon) :
  (length poly < 3)%nat -> inside_polygon pt poly = false.
Proof.
  intros Hlen. destruct pt as [x y].
  destruct poly as [|u [|v [|w poly]]]; [reflexivity| | |simpl in Hlen; lia].
  - unfold inside_polygon. simpl. unfold crosses.
    rewrite straddles_equal by reflexivity. reflexivity.
  - unfold inside_polygon. simpl. rewrite (crosses_sym x y v u).
    destruct (crosses x y u v); reflexivity.
Qed.



(** X11. A polygon without vertices collides with nothing, whichever
    argument it is. *)
Theorem empty_polygon_no_collision (A : polygon) :
  check_polygon_collision [] A = Return false /\
  check_polygon_collision A [] = Return false.
Proof.
  rewrite !check_polygon_collision_closed. split.
  - simpl. rewrite existsb_false; [reflexivity|].
    intros pt _. apply inside_few_vertices. simpl. lia.
  - rewrite (existsb_false (fun pt => inside_polygon pt []) A).
    + simpl. rewrite existsb_false; [reflexivity|].
      intros [e1 e2] Hin. apply in_edge_pairs in Hin. destruct Hin as [_ []].
    + intros pt _. reflexivity.
Qed.

(** *** Collinear edges *)



(** *** The edges *)

Lemma map_nth_seq {A} (l : list A) (d : A) :
  map (fun i => nth i l d) (seq 0 (length l)) = l.
Proof.
  induction l as [|a l IH]; [reflexivity|].
  simpl. f_equal. rewrite <- seq_shift, map_map. exact IH.
Qed.

Lemma edges_of_loop (poly : polygon) :
  map fst (edges_of poly) = poly /\
  map snd (edges_of poly) = skipn 1 poly ++ firstn 1 poly.
Proof.
  unfold edges_of. rewrite !map_map. unfold edge_at. simpl. split.
  - apply map_nth_seq.
  - destruct poly as [|v rest]; [reflexivity|].
    simpl length. simpl skipn. simpl firstn.
    replace (S (length rest)) with (length rest + 1)%nat by lia.
    rewrite seq_app, map_app. simpl. f_equal.
    + transitivity (map (fun i => nth i rest (0, 0)) (seq 0 (length rest)));
        [|apply map_nth_seq].
      apply map_ext_in. intros i Hi. apply in_seq in Hi.
      rewrite Nat.mod_small by lia. rewrite Nat.add_1_r. reflexivity.
    + rewrite Nat.Div0.mod_same. reflexivity.
Qed.

(** X13. The edges [get_edges] returns form the closed loop of the polygon:
    there is one edge per vertex, the edges start at the vertices in their
    order, and each ends at the next vertex, the last one at the first. *)
Theorem get_edges_closed_loop (poly : polygon) :
  exists es, get_edges poly = Return es /\
             map fst es = poly /\
             map snd es = skipn 1 poly ++ firstn 1 poly.
Proof.
  exists (edges_of poly). split; [apply get_edges_edges_of|]. apply edges_of_loop.
Qed.

(** *** Moving both polygons *)













(** *** The first vertex *)












End PolygonMore.

(* ===================================================================== *)
(** * Further properties of copy_directory *)
(* ===================================================================== *)

Section FileProcessorMore.
Import FileProcessor.

(** X16. Whatever its outcome, [copy_directory] removes no entry and turns
    no file into a directory or a directory into a file; outside the target
    it changes nothing but for missing parents of the target, which it makes;
    and it leaves a well-formed file system well-formed. *)
Theorem copy_directory_only_grows (limit : nat) (s t : path) (w : world) :
  grows t w (snd (copy_directory limit s t w)).
Proof.
  destruct (copy_directory limit s t w) as [r w'] eqn:H. simpl.
  apply (copy_directory_grows _ _ _ _ _ _ H).
Qed.

(** X17. When the target is neither the source, nor below it, nor above
    it, [copy_directory] leaves the source tree as it is, whatever its
    outcome. *)
Theorem copy_directory_keeps_source (limit : nat) (s t : path) (w : world) :
  unrelated s t ->
  forall rel, fs (snd (copy_directory limit s t w)) !! (rel ++ s) = fs w !! (rel ++ s).
Proof.
  intros Hun rel. destruct (copy_directory limit s t w) as [r w'] eqn:H. simpl.
  destruct (copy_directory_grows _ _ _ _ _ _ H) as (_ & _ & C & _).
  destruct (unrelated_source s t rel Hun) as [H1 H2].
  destruct (C _ H1) as [E|[S _]]; [exact E|contradiction].
Qed.

(** On the demo file system, even with a call limit that is too small. *)
Lemma copy_directory_keeps_source_witness :
  fs (snd (copy_directory 1 ["src"%string] ["dst"%string] demo_world))
     !! ["b.txt"; "sub"; "src"]%string
  = Some (File "beta").
Proof.
  assert (Hun : unrelated ["src"%string] ["dst"%string]).
  { apply unrelated_check_sound. vm_compute. reflexivity. }
  pose proof (copy_directory_keeps_source 1 ["src"%string] ["dst"%string] demo_world
                Hun ["b.txt"; "sub"]%string) as H.
  simpl app in H. rewrite H. vm_compute. reflexivity.
Defined.

(** X18. A regular file as the source is not refused at once: the target
    directory is made first, and the call then raises
    [NotADirectoryError]. *)
Theorem copy_directory_from_file (limit : nat) (s t : path) (w : world) (c : string) :
  fs w !! s = Some (File c) -> fs w !! [] = Some Dir -> clear_path (fs w) t ->
  exists w',
    copy_directory (S limit) s t w = (Raise NotADirectoryError, w') /\
    fs w' !! t = Some Dir /\ fs w' !! s = Some (File c).
Proof.
  intros Hs Hroot Hclear. simpl. rewrite bind_run. unfold exists_. cbv beta iota zeta.
  rewrite bool_decide_eq_true_2 by eauto. cbn [negb].
  destruct (mkdir_parents_returns t w Hroot Hclear) as [w1 H1].
  rewrite bind_run, H1.
  destruct (mkdir_parents_effect _ _ _ _ H1) as ((_ & M1 & _) & D1 & _).
  assert (Hs1 : fs w1 !! s = Some (File c)).
  { destruct (M1 s) as [E|(_ & N & _)]; congruence. }
  rewrite bind_run. unfold logging at 1. cbv beta iota zeta.
  rewrite bind_run. unfold iterdir, raise. simpl fs. rewrite Hs1.
  eexists. split; [reflexivity|]. simpl. auto.
Qed.

(** On the demo file system, with [/src/a.txt] as the source. *)
Lemma copy_directory_from_file_witness :
  exists w',
    copy_directory 1 ["a.txt"; "src"]%string ["new"%string] demo_world
    = (Raise NotADirectoryError, w') /\
    fs w' !! ["new"%string] = Some Dir /\
    fs w' !! ["a.txt"; "src"]%string = Some (File "alpha").
Proof.
  apply (copy_directory_from_file 0 ["a.txt"; "src"]%string ["new"%string] demo_world).
  - reflexivity.
  - reflexivity.
  - apply clear_path_check_sound. reflexivity.
Defined.

(** X19. When a regular file stands at the target path, [copy_directory]
    from an existing source raises [FileExistsError] and changes nothing,
    neither the file system nor the log. *)
Theorem copy_directory_onto_file (limit : nat) (s t : path) (w : world) (c : string) :
  wf (fs w) -> is_Some (fs w !! s) -> fs w !! t = Some (File c) ->
  copy_directory (S limit) s t w = (Raise FileExistsError, w).
Proof.
  intros Hwf Hs Ht. simpl. rewrite bind_run. unfold exists_. cbv beta iota zeta.
  rewrite bool_decide_eq_true_2 by exact Hs. cbn [negb]. rewrite bind_run.
  destruct t as [|name parent].
  { destruct Hwf as [Hroot _]. congruence. }
  assert (Hp : fs w !! parent = Some Dir).
  { apply (proj2 Hwf name). rewrite Ht. eauto. }
  simpl. unfold os_mkdir, raise. rewrite Hp, Ht.
  rewrite bool_decide_eq_false_2 by (rewrite Ht; discriminate). reflexivity.
Qed.

(** On the demo file system, with [/dst/a.txt] as the target. *)
Lemma copy_directory_onto_file_witness :
  copy_directory 3 ["src"%string] ["a.txt"; "dst"]%string demo_world
  = (Raise FileExistsError, demo_world).
Proof.
  apply (copy_directory_onto_file 2 ["src"%string] ["a.txt"; "dst"]%string demo_world "old").
  - apply wf_check_sound. reflexivity.
  - exists Dir. reflexivity.
  - reflexivity.
Defined.

(** *** A target below the source *)

(** An iteration of a loop that returns has returned, in a world reached
    from the first by the iterations before it. *)
Lemma for_in_member {A} (R : world -> world -> Prop) (l : list A) (body : A -> io unit) :
  (forall w, R w w) ->
  (forall w1 w2 w3, R w1 w2 -> R w2 w3 -> R w1 w3) ->
  (forall a w r w', body a w = (r, w') -> R w w') ->
  forall w w' a,
    for_in l body w = (Return tt, w') -> In a l ->
    exists w0 w1, R w w0 /\ body a w0 = (Return tt, w1).
Proof.
  intros Hrefl Htrans Hbody. induction l as [|b l IH]; intros w w' a H Hin.
  - contradiction.
  - simpl in H. rewrite bind_run in H. destruct (body b w) as [r1 w1] eqn:H1.
    destruct r1 as [e|[]]; [discriminate|]. destruct Hin as [->|Hin].
    + exists w, w1. split; [apply Hrefl|exact H1].
    + destruct (IH _ _ _ H Hin) as (w0 & w2 & HR & Hb).
      exists w0, w2. split; [|exact Hb].
      apply (Htrans _ w1); [apply (Hbody _ _ _ _ H1)|exact HR].
Qed.

Lemma copy_item_grows (limit : nat) (s t : path) (name : string) (w w' : world)
      (r : result unit) :
  (d ← is_dir (name :: s);
   if d : bool then copy_directory limit (name :: s) (name :: t)
   else copy2 (name :: s) (name :: t);; logging INFO ("Copied file: " +:+ name)) w
  = (r, w') ->
  grows t w w'.
Proof.
  rewrite bind_run. unfold is_dir. cbv beta iota zeta.
  destruct (bool_decide (fs w !! (name :: s) = Some Dir)).
  - intros H. apply grows_parent with name. apply (copy_directory_grows _ _ _ _ _ _ H).
  - rewrite bind_run. destruct (copy2 (name :: s) (name :: t) w) as [r3 w3] eqn:H3.
    pose proof (copy2_grows _ _ _ _ _ _ H3) as G.
    destruct r3 as [e|[]]; unfold logging; intros H; inversion H; subst.
    + exact G.
    + apply (grows_trans _ _ w3); [exact G|]. apply grows_same_fs. reflexivity.
Qed.

Lemma copy_directory_below_itself (limit : nat) :
  forall (s rel : path) (w : world),
    wf (fs w) -> rel <> [] ->
    fst (copy_directory limit s (rel ++ s) w) <> Return tt.
Proof.
  induction limit as [|limit IH]; intros s rel w Hwf Hne.
  { simpl. discriminate. }
  simpl. rewrite bind_run. unfold exists_. cbv beta iota zeta.
  destruct (bool_decide (is_Some (fs w !! s))); cbn [negb]; [|simpl; discriminate].
  rewrite bind_run. destruct (mkdir_parents (rel ++ s) w) as [r1 w1] eqn:H1.
  destruct (mkdir_parents_effect _ _ _ _ H1) as ((_ & _ & W1) & D1 & _).
  destruct r1 as [e|[]]; [simpl; discriminate|].
  specialize (D1 eq_refl). specialize (W1 Hwf).
  rewrite bind_run. unfold logging at 1. cbv beta iota zeta.
  set (w2 := {| fs := fs w1; log := _ |}).
  rewrite bind_run. unfold iterdir, raise. change (fs w2) with (fs w1).
  destruct rel as [|x rel0 _] using rev_ind; [congruence|].
  rewrite <- app_assoc in *. simpl in D1.
  assert (Hchild : fs w1 !! (x :: s) = Some Dir).
  { destruct rel0 as [|y rel0]; [exact D1|].
    apply (wf_parents (fs w1) (y :: rel0)); [exact W1| |discriminate].
    rewrite D1. eauto. }
  assert (Hs1 : fs w1 !! s = Some Dir).
  { apply (proj2 W1 x). rewrite Hchild. eauto. }
  rewrite Hs1.
  destruct (for_in _ _ w2) as [r w'] eqn:Hloop. simpl. intros ->.
  destruct (for_in_member (fun wa wb => grows (rel0 ++ [x] ++ s) wa wb) _ _
              (grows_refl _) (grows_trans _)
              (fun a wa ra wb => copy_item_grows limit s (rel0 ++ [x] ++ s) a wa wb ra)
              _ _ x Hloop) as (w0 & w3 & (D & _ & _ & W) & Hbody).
  { apply list_elem_of_In, elem_of_elements, elem_of_set_omap. exists (x :: s). split.
    - apply elem_of_dom. rewrite Hchild. eauto.
    - unfold child_name. rewrite decide_True by reflexivity. reflexivity. }
  rewrite bind_run in Hbody. unfold is_dir in Hbody. cbv beta iota zeta in Hbody.
  rewrite bool_decide_eq_true_2 in Hbody by (apply D; exact Hchild).
  apply (IH (x :: s) (x :: rel0) w0 (W W1)); [discriminate|].
  change ((x :: rel0) ++ x :: s) with (x :: rel0 ++ [x] ++ s). rewrite Hbody. reflexivity.
Qed.

(** X20. Copying a directory to a place below itself never completes: on a
    well-formed file system, whatever the call limit, [copy_directory] does
    not return but ends with an exception. *)
Theorem copy_directory_into_itself (limit : nat) (s rel : path) (w : world) :
  wf (fs w) -> rel <> [] ->
  exists e, fst (copy_directory limit s (rel ++ s) w) = Raise e.
Proof.
  intros Hwf Hne. pose proof (copy_directory_below_itself limit s rel w Hwf Hne) as H.
  destruct (fst (copy_directory limit s (rel ++ s) w)) as [e|[]]; [eauto|congruence].
Qed.

(** On the demo file system, copying [/src] to [/src/in]. *)
Lemma copy_directory_into_itself_witness :
  exists e, fst (copy_directory 5 ["src"%string] ["in"; "src"]%string demo_world) = Raise e.
Proof.
  apply (copy_directory_into_itself 5 ["src"%string] ["in"%string] demo_world).
  - apply wf_check_sound. reflexivity.
  - discriminate.
Defined.

End FileProcessorMore.

(* ===================================================================== *)
(** * FileProcessor.process_files *)
(* ===================================================================== *)

Module FileScan.

Import FileProcessor.

(** [Path.name]: the last component of the path. *)
Definition name (p : path) : string := hd EmptyString p.

(** [name.rfind('.')] over the characters [l], [i] being the index of the
    first of them and [found] the last dot seen before them. *)
Fixpoint rfind_dot (l : list ascii) (i : nat) (found : option nat) : option nat :=
  match l with
  | [] => found
  | c :: l' => rfind_dot l' (S i) (if Ascii.eqb c "."%char then Some i else found)
  end.

(** [Path.suffix]: the name from its last dot on, when that dot is neither
    the first nor the last character of the name; the empty string
    otherwise. *)
Definition path_suffix (nm : string) : string :=
  let cs := list_ascii_of_string nm in
  match rfind_dot cs 0 None with
  | Some i =>
      if Nat.ltb 0 i && Nat.ltb i (length cs - 1)
      then string_of_list_ascii (skipn i cs)
      else EmptyString
  | None => EmptyString
  end.

(** The number of lines a text file yields when iterated in text mode with
    universal newlines: a line ends at ["\n"], at ["\r\n"] or at a lone
    ["\r"], and characters after the last line end make one more line.
    [after_cr] says that the character before was ["\r"], [pending] that
    the line being read has characters. *)
Fixpoint count_lines_from (cs : list ascii) (after_cr pending : bool) : nat :=
  match cs with
  | [] => if pending then 1 else 0
  | c :: cs' =>
      if Ascii.eqb c "010"%char then
        if after_cr then count_lines_from cs' false false
        else S (count_lines_from cs' false false)
      else if Ascii.eqb c "013"%char then S (count_lines_from cs' true false)
      else count_lines_from cs' false true
  end.

(** [sum(1 for _ in file_path.open('r'))] on the content of a file. *)
Definition count_lines (content : string) : Z :=
  Z.of_nat (count_lines_from (list_ascii_of_string content) false false).

(** The directories above [q], nearest first. *)
Definition strict_parents (q : path) : list path :=
  match q with
  | [] => []
  | _ :: parent => parents parent
  end.

(** [q] is reached by walking down from the directory [p]: it lies strictly
    below [p], and everything from [p] down to its parent is a directory. *)
Definition listed (m : gmap path node) (p q : path) : bool :=
  bool_decide (suffix p q /\ q <> p) &&
  forallb (fun q' => if decide (suffix p q')
                     then bool_decide (m !! q' = Some Dir) else true)
          (strict_parents q).

(** [dir_path.rglob('*')]: every entry below the directory, at any depth;
    nothing when [p] is not a directory. The order is that of the directory
    listings of the operating system, of which the model fixes one. *)
Definition rglob (p : path) : io (list path) := fun w =>
  (Return (List.filter (listed (fs w) p) (elements (dom (fs w)))), w).

(** [file_path.open('r')] and reading the text. *)
Definition read_text (q : path) : io string := fun w =>
  match fs w !! q with
  | Some (File content) => (Return content, w)
  | Some Dir => (Raise IsADirectoryError, w)
  | None => (Raise FileNotFoundError, w)
  end.

(** [try: m except Exception as e: handler(e)] *)
Definition try_except {A} (m : io A) (handler : exn -> io A) : io A := fun w =>
  match m w with
  | (Raise e, w') => handler e w'
  | (Return a, w') => (Return a, w')
  end.

(** [str(e)] for an exception raised on the path [q]. *)
Definition exn_str (e : exn) (q : path) : string :=
  match e with
  | IsADirectoryError => "[Errno 21] Is a directory: '" +:+ path_str q +:+ "'"
  | FileNotFoundError => "[Errno 2] No such file or directory: '" +:+ path_str q +:+ "'"
  | NotADirectoryError => "[Errno 20] Not a directory: '" +:+ path_str q +:+ "'"
  | FileExistsError => "[Errno 17] File exists: '" +:+ path_str q +:+ "'"
  | _ => ""
  end.

(** A [for] loop that builds up a value. *)
Fixpoint for_acc {A R} (l : list A) (body : R -> A -> io R) (acc : R) : io R :=
  match l with
  | [] => mret acc
  | a :: l' => acc' ← body acc a; for_acc l' body acc'
  end.

(** [file_path.suffix in extensions] *)
Definition suffix_in (extensions : list string) (q : path) : bool :=
  existsb (String.eqb (path_suffix (name q))) extensions.

(** The list [result] is threaded through the loop. In the [try] block
    only the reading can raise, before the [append]: the handler finds the
    list as it was at the start of the iteration. *)
Definition process_files (directory : path) (extensions : list string)
  : io (list (string * Z)) :=
  files ← rglob directory;
  for_acc files
    (fun result file_path =>
       if suffix_in extensions file_path then
         try_except
           (content ← read_text file_path;
            let line_count := count_lines content in
            let appended := result ++ [(name file_path, line_count)] in
            logging INFO ("Processed file: " +:+ name file_path);;
            mret appended)
           (fun e =>
              logging ERROR ("Error processing " +:+ name file_path +:+ ": "
                             +:+ exn_str e file_path);;
              mret result)
       else mret result)
    [].

(** ** Notions used to state the properties *)

(** The entries the scan visits, in the order of the model. *)
Definition scanned (m : gmap path node) (p : path) : list path :=
  List.filter (listed m p) (elements (dom m)).

(** What the scan reports for the entry [q]: its name and line count, when
    [q] is a regular file with one of the extensions. *)
Definition report (m : gmap path node) (extensions : list string) (q : path)
  : option (string * Z) :=
  if suffix_in extensions q then
    match m !! q with
    | Some (File content) => Some (name q, count_lines content)
    | _ => None
    end
  else None.

(** The record logged for the entry [q]: none when its suffix is not among
    the extensions. *)
Definition logged (m : gmap path node) (extensions : list string) (q : path)
  : option log_record :=
  if suffix_in extensions q then
    match m !! q with
    | Some (File _) => Some (INFO, "Processed file: " +:+ name q)
    | Some Dir =>
        Some (ERROR, "Error processing " +:+ name q +:+ ": "
                     +:+ exn_str IsADirectoryError q)
    | None =>
        Some (ERROR, "Error processing " +:+ name q +:+ ": "
                     +:+ exn_str FileNotFoundError q)
    end
  else None.

(** [q] lies strictly below [p], and everything from [p] down to the
    parent of [q] is a directory. *)
Definition below (m : gmap path node) (p q : path) : Prop :=
  suffix p q /\ q <> p /\
  forall q', suffix p q' -> suffix q' q -> q' <> q -> m !! q' = Some Dir.

(** The text of the lines [lines], each followed by the line end [term],
    and of [rest] after them. *)
Fixpoint text_of (term : string) (lines : list string) (rest : string) : string :=
  match lines with
  | [] => rest
  | l :: lines' => l +:+ term +:+ text_of term lines' rest
  end.

(** No character of [s] is a line feed or a carriage return. *)
Definition one_line (s : string) : bool :=
  forallb (fun c => negb (Ascii.eqb c "010"%char) && negb (Ascii.eqb c "013"%char))
          (list_ascii_of_string s).

(** No character of [s] is a dot. *)
Definition no_dot (s : string) : bool :=
  forallb (fun c => negb (Ascii.eqb c "."%char)) (list_ascii_of_string s).

(** A file system with a directory named like a text file. *)
Definition scan_fs : gmap path node :=
  <[ ["notes.txt"; "old.txt"; "data"] := File ("one" +:+ String "010"%char "two") ]>
  (<[ ["old.txt"; "data"] := Dir ]>
  (<[ [".txt"; "data"] := File "hidden" ]>
  (<[ ["app.log"; "data"] := File (String "010"%char (String "010"%char "")) ]>
  (<[ ["readme.md"; "data"] := File "text" ]>
  (<[ ["data"] := Dir ]>
  (<[ [] := Dir ]> ∅)))))).

Definition scan_world : world := {| fs := scan_fs; log := [] |}.

End FileScan.

Section FileScanFacts.
Import FileProcessor FileScan.

Lemma parents_suffix (q t : path) : In q (parents t) -> suffix q t.
Proof.
  induction t as [|name t IH]; simpl; intros [<-|H]; try reflexivity; try contradiction.
  apply suffix_cons_r. apply IH. exact H.
Qed.

Lemma in_strict_parents (q' q : path) :
  In q' (strict_parents q) <-> suffix q' q /\ q' <> q.
Proof.
  destruct q as [|name parent]; simpl.
  - split; [contradiction|]. intros [H Hne]. apply suffix_nil_inv in H. congruence.
  - split.
    + intros H. apply parents_suffix in H. split; [apply suffix_cons_r; exact H|].
      intros ->. apply (suffix_cons_not name parent). exact H.
    + intros [H Hne]. apply suffix_cons_cases in H. destruct H as [->|H]; [congruence|].
      apply in_parents. exact H.
Qed.

Lemma listed_below (m : gmap path node) (p q : path) :
  listed m p q = true <-> below m p q.
Proof.
  unfold listed, below. rewrite andb_true_iff, forallb_forall. split.
  - intros [H1 H2]. apply bool_decide_eq_true_1 in H1. destruct H1 as [Hs Hne].
    split; [exact Hs|]. split; [exact Hne|]. intros q' Hp Hq Hne'.
    specialize (H2 q' (proj2 (in_strict_parents q' q) (conj Hq Hne'))).
    rewrite decide_True in H2 by exact Hp. apply bool_decide_eq_true_1 in H2. exact H2.
  - intros (Hs & Hne & H). split; [apply bool_decide_eq_true_2; auto|].
    intros q' Hq'. apply in_strict_parents in Hq'. destruct Hq' as [Hq Hne'].
    destruct (decide (suffix p q')) as [Hp|]; [|reflexivity].
    apply bool_decide_eq_true_2. apply H; assumption.
Qed.

Lemma in_scanned (m : gmap path node) (p q : path) :
  In q (scanned m p) <-> is_Some (m !! q) /\ below m p q.
Proof.
  unfold scanned. rewrite filter_In, listed_below.
  rewrite <- list_elem_of_In, elem_of_elements, elem_of_dom. tauto.
Qed.

(** The loop of [process_files] in closed form. *)
Lemma process_loop (extensions : list string) (m : gmap path node) (files : list path) :
  forall (acc : list (string * Z)) (lg : list log_record),
    for_acc files
      (fun result file_path =>
         if suffix_in extensions file_path then
           try_except
             (content ← read_text file_path;
              let line_count := count_lines content in
              logging INFO ("Processed file: " +:+ name file_path);;
              mret (result ++ [(name file_path, line_count)]))
             (fun e =>
                logging ERROR ("Error processing " +:+ name file_path +:+ ": "
                               +:+ exn_str e file_path);;
                mret result)
         else mret result)
      acc {| fs := m; log := lg |}
    = (Return (acc ++ omap (report m extensions) files),
       {| fs := m; log := lg ++ omap (logged m extensions) files |}).
Proof.
  induction files as [|q files IH]; intros acc lg.
  - simpl. rewrite !app_nil_r. reflexivity.
  - simpl for_acc. rewrite bind_run. simpl omap. unfold report at 1, logged at 1.
    destruct (suffix_in extensions q).
    + unfold try_except. rewrite bind_run. unfold read_text. simpl fs.
      destruct (m !! q) as [[content|]|]; simpl.
      * rewrite IH. rewrite <- !app_assoc. reflexivity.
      * rewrite IH. rewrite <- !app_assoc. reflexivity.
      * rewrite IH. rewrite <- !app_assoc. reflexivity.
    + simpl. rewrite IH. reflexivity.
Qed.

Lemma process_files_closed (directory : path) (extensions : list string) (w : world) :
  process_files directory extensions w
  = (Return (omap (report (fs w) extensions) (scanned (fs w) directory)),
     {| fs := fs w;
        log := log w ++ omap (logged (fs w) extensions) (scanned (fs w) directory) |}).
Proof.
  unfold process_files. rewrite bind_run. unfold rglob. destruct w as [m lg]. simpl fs.
  apply (process_loop extensions m (scanned m directory) [] lg).
Qed.



Lemma scanned_nil (m : gmap path node) (p : path) :
  m !! p <> Some Dir -> scanned m p = [].
Proof.
  intros Hp. destruct (scanned m p) as [|q l] eqn:E; [reflexivity|].
  assert (Hq : In q (scanned m p)) by (rewrite E; left; reflexivity).
  apply in_scanned in Hq. destruct Hq as [_ (Hs & Hne & Hd)].
  exfalso. apply Hp. apply Hd; [reflexivity|exact Hs|congruence].
Qed.

(** X23. On a path that is not a directory, a missing one or a regular
    file, [process_files] returns the empty list, raises nothing and logs
    nothing. *)
Theorem process_files_no_directory (directory : path) (extensions : list string)
        (w : world) :
  fs w !! directory <> Some Dir ->
  process_files directory extensions w = (Return [], w).
Proof.
  intros Hd. rewrite process_files_closed, (scanned_nil _ _ Hd). simpl.
  destruct w as [m lg]. simpl. rewrite app_nil_r. reflexivity.
Qed.

(** A missing directory, and a regular file. *)
Lemma process_files_no_directory_witness :
  process_files ["nodata"%string] [".txt"%string] scan_world = (Return [], scan_world) /\
  process_files ["app.log"; "data"]%string [".txt"%string] scan_world
  = (Return [], scan_world).
Proof.
  split; apply process_files_no_directory; vm_compute; discriminate.
Defined.


(** *** Counting lines *)

Lemma chars_append (a b : string) :
  list_ascii_of_string (a +:+ b) = list_ascii_of_string a ++ list_ascii_of_string b.
Proof.
  induction a as [|c a IH]; simpl; [reflexivity|]. rewrite IH. reflexivity.
Qed.

(** Reading the characters of one line. *)
Lemma count_one_line (l rest : list ascii) (after_cr pending : bool) :
  forallb (fun c => negb (Ascii.eqb c "010"%char) && negb (Ascii.eqb c "013"%char)) l
  = true ->
  count_lines_from (l ++ rest) after_cr pending
  = match l with
    | [] => count_lines_from rest after_cr pending
    | _ => count_lines_from rest false true
    end.
Proof.
  revert after_cr pending. induction l as [|c l IH]; intros after_cr pending H.
  - reflexivity.
  - simpl in H. apply andb_true_iff in H. destruct H as [Hc Hl].
    apply andb_true_iff in Hc. destruct Hc as [H1 H2].
    apply negb_true_iff in H1, H2. simpl. rewrite H1, H2, IH by exact Hl.
    destruct l; reflexivity.
Qed.

Lemma count_text_lf (lines : list string) (rest : string) :
  forallb one_line lines = true -> one_line rest = true ->
  count_lines_from (list_ascii_of_string (text_of (String "010"%char "") lines rest))
                   false false
  = (length lines + if String.eqb rest "" then 0 else 1)%nat.
Proof.
  intros Hlines Hrest. induction lines as [|l lines IH].
  - simpl. rewrite <- (app_nil_r (list_ascii_of_string rest)).
    rewrite count_one_line by exact Hrest. destruct rest; reflexivity.
  - simpl in Hlines. apply andb_true_iff in Hlines. destruct Hlines as [Hl Hlines].
    simpl text_of. rewrite !chars_append, count_one_line by exact Hl.
    simpl. rewrite IH by exact Hlines.
    destruct (list_ascii_of_string l); reflexivity.
Qed.

Lemma count_text_crlf (lines : list string) (rest : string) :
  forallb one_line lines = true -> one_line rest = true ->
  count_lines_from
    (list_ascii_of_string (text_of (String "013"%char (String "010"%char "")) lines rest))
    false false
  = (length lines + if String.eqb rest "" then 0 else 1)%nat.
Proof.
  intros Hlines Hrest. induction lines as [|l lines IH].
  - simpl. rewrite <- (app_nil_r (list_ascii_of_string rest)).
    rewrite count_one_line by exact Hrest. destruct rest; reflexivity.
  - simpl in Hlines. apply andb_true_iff in Hlines. destruct Hlines as [Hl Hlines].
    simpl text_of. rewrite !chars_append, count_one_line by exact Hl.
    simpl. rewrite IH by exact Hlines.
    destruct (list_ascii_of_string l); reflexivity.
Qed.

(** X24. The line count [process_files] reports for a file of lines that
    each end in a line feed, or each in a carriage return and a line feed,
    is the number of these lines, and one more when characters follow the
    last line end; an empty file has no line. *)
Theorem count_lines_of_text (lines : list string) (rest : string) :
  forallb one_line lines = true -> one_line rest = true ->
  count_lines (text_of (String "010"%char "") lines rest)
  = Z.of_nat (length lines) + (if String.eqb rest "" then 0 else 1) /\
  count_lines (text_of (String "013"%char (String "010"%char "")) lines rest)
  = Z.of_nat (length lines) + (if String.eqb rest "" then 0 else 1).
Proof.
  intros Hlines Hrest. unfold count_lines.
  rewrite count_text_lf, count_text_crlf by assumption.
  destruct (String.eqb rest ""); split; lia.
Qed.

(** Two lines and an unfinished third; the empty file. *)
Lemma count_lines_of_text_witness :
  count_lines ("a" +:+ String "010"%char "" +:+ "" +:+ String "010"%char "" +:+ "end") = 3
  /\ count_lines "" = 0.
Proof.
  split.
  - apply (count_lines_of_text ["a"; ""]%string "end"); reflexivity.
  - apply (count_lines_of_text [] ""); reflexivity.
Defined.

(** *** The suffix of a name *)

Lemma rfind_dot_app (l1 l2 : list ascii) (i : nat) (found : option nat) :
  rfind_dot (l1 ++ l2) i found = rfind_dot l2 (i + length l1) (rfind_dot l1 i found).
Proof.
  revert i found. induction l1 as [|c l1 IH]; intros i found; simpl.
  - rewrite Nat.add_0_r. reflexivity.
  - rewrite IH. f_equal. lia.
Qed.

Lemma rfind_dot_none (l : list ascii) (i : nat) (found : option nat) :
  forallb (fun c => negb (Ascii.eqb c "."%char)) l = true -> rfind_dot l i found = found.
Proof.
  revert i found. induction l as [|c l IH]; intros i found H; [reflexivity|].
  simpl in H. apply andb_true_iff in H. destruct H as [Hc Hl].
  apply negb_true_iff in Hc. simpl. rewrite Hc. apply IH. exact Hl.
Qed.

Lemma rfind_last_dot (stem ext : list ascii) :
  forallb (fun c => negb (Ascii.eqb c "."%char)) ext = true ->
  rfind_dot (stem ++ "."%char :: ext) 0 None = Some (length stem).
Proof.
  intros H. rewrite rfind_dot_app. simpl. apply rfind_dot_none. exact H.
Qed.

(** X25. The suffix [process_files] compares with the extensions is the
    part of the name from its last dot on, when there is something before
    and after that dot. A name without a dot, a name whose only dot is its
    first character, such as [.txt], and a name that ends in a dot have the
    empty suffix. *)
Theorem path_suffix_cases (stem ext : string) :
  no_dot ext = true ->
  (stem <> EmptyString -> ext <> EmptyString ->
   path_suffix (stem +:+ "." +:+ ext) = "." +:+ ext) /\
  path_suffix ext = EmptyString /\
  path_suffix ("." +:+ ext) = EmptyString /\
  path_suffix (stem +:+ ".") = EmptyString.
Proof.
  intros Hext. unfold no_dot in Hext. split; [|split; [|split]].
  - intros Hs He. unfold path_suffix. rewrite !chars_append. simpl.
    rewrite (rfind_last_dot _ _ Hext).
    destruct (list_ascii_of_string stem) as [|c cs] eqn:Es.
    { destruct stem; [congruence|discriminate]. }
    destruct (list_ascii_of_string ext) as [|d ds] eqn:Ee.
    { destruct ext; [congruence|discriminate]. }
    replace (Nat.ltb 0 (length (c :: cs))) with true by reflexivity.
    replace (Nat.ltb (length (c :: cs))
                     (length ((c :: cs) ++ "."%char :: d :: ds) - 1)) with true.
    + simpl andb. cbv iota. rewrite drop_app_length. simpl.
      change (String d (string_of_list_ascii ds)) with (string_of_list_ascii (d :: ds)).
      rewrite <- Ee, string_of_list_ascii_of_string. reflexivity.
    + symmetry. apply Nat.ltb_lt. rewrite length_app. simpl. lia.
  - unfold path_suffix. rewrite (rfind_dot_none _ _ _ Hext). reflexivity.
  - unfold path_suffix. simpl. rewrite (rfind_dot_none _ _ _ Hext). reflexivity.
  - unfold path_suffix. rewrite chars_append. simpl.
    rewrite (rfind_last_dot (list_ascii_of_string stem) [] eq_refl).
    replace (Nat.ltb (length (list_ascii_of_string stem))
                     (length (list_ascii_of_string stem ++ ["."%char]) - 1)) with false.
    + rewrite andb_false_r. reflexivity.
    + symmetry. apply Nat.ltb_ge. rewrite length_app. simpl. lia.
Qed.

(** [archive.tar.gz], [bashrc] and [.txt]. *)
Lemma path_suffix_cases_witness :
  path_suffix "archive.tar.gz" = ".gz"%string /\
  path_suffix "bashrc" = EmptyString /\
  path_suffix ".txt" = EmptyString.
Proof.
  split; [|split].
  - apply (path_suffix_cases "archive.tar" "gz"); [reflexivity|discriminate|discriminate].
  - apply (path_suffix_cases "" "bashrc"). reflexivity.
  - apply (path_suffix_cases "" "txt"). reflexivity.
Defined.

End FileScanFacts.
